(** * PrompTab: placeholder parsing, replacement, preview and the local stores

    A shallow embedding of the placeholder and variable logic of the
    PrompTab browser extension:

    - [popup/index.tsx]: [parseVariablesFromText], [InteractiveText],
      [handleVariableClick], [handleReplaceVariable];
    - [utils/storage] (the second document of [utils/errorHandler.ts]):
      [safeBrowser], [getUserVariables], [addUserVariable],
      [updateUserVariable], [removeUserVariable], [getRecentPrompts],
      [addRecentPrompt];
    - [components/PromptWithVariables.tsx]: the preview effect.

    JavaScript strings are sequences of code units; they are modelled as
    lists of characters, offsets as natural numbers. *)

From Stdlib Require Import String Ascii List Sorted Arith ZArith Lia Bool.
Import ListNotations.
(* [length] is the length of lists, not of [String.string]. *)
Import Corelib.Init.Datatypes.

(** ** JavaScript strings *)

Module JS.

Definition jsstring := list ascii.

(** String literals of the source are written [str "..."]. *)
Definition str (s : String.string) : jsstring := String.list_ascii_of_string s.
Arguments str s%_string.

Definition jsstring_eqb (a b : jsstring) : bool :=
  if list_eq_dec ascii_dec a b then true else false.

(** [s.substring(a, b)] on non-negative offsets: both are clamped to the
    length and swapped when [a > b]. *)
Definition substring (s : jsstring) (a b : nat) : jsstring :=
  firstn (Nat.max a b - Nat.min a b) (skipn (Nat.min a b) s).

(** [s.substring(a)]. *)
Definition substring_from (s : jsstring) (a : nat) : jsstring := skipn a s.

(** [s.slice(a, b)] on non-negative offsets: clamped, empty when [b <= a]. *)
Definition slice (s : jsstring) (a b : nat) : jsstring :=
  firstn (b - a) (skipn a s).

(** [s.slice(a)]. *)
Definition slice_from (s : jsstring) (a : nat) : jsstring := skipn a s.

(** Truthiness of a string: [if (s)] holds for the non-empty ones. *)
Definition truthy (s : jsstring) : bool :=
  match s with [] => false | _ :: _ => true end.

(** *** Regular expressions with the [g] flag

    A pattern is given by its anchored matcher: applied to the rest of the
    text at some position, it returns the whole match [match[0]] and the
    first capture [match[1]]. *)

Definition Matcher := jsstring -> option (jsstring * jsstring).

Record RegExpMatch := mkMatch {
  index : nat;
  match0 : jsstring;
  match1 : jsstring
}.

(** Leftmost search: the pattern is tried at the current position, then one
    code unit further, up to and including the end of the text. *)
Fixpoint exec_at (p : Matcher) (rest : jsstring) (pos : nat) : option RegExpMatch :=
  match p rest with
  | Some (m0, m1) => Some (mkMatch pos m0 m1)
  | None =>
      match rest with
      | [] => None
      | _ :: rest' => exec_at p rest' (S pos)
      end
  end.

(** [regex.exec(text)] for a global regex whose [lastIndex] is [lastIndex]:
    the search starts there; on success the caller's [lastIndex] becomes
    [index + match[0].length], on failure [null] is returned. *)
Definition exec (p : Matcher) (text : jsstring) (lastIndex : nat) : option RegExpMatch :=
  if length text <? lastIndex then None
  else exec_at p (skipn lastIndex text) lastIndex.

Definition lastIndex_after (m : RegExpMatch) : nat := index m + length (match0 m).

(** The longest prefix made of code units other than [stop]: what a greedy
    negated class [[^stop]+] consumes. *)
Fixpoint run_except (stop : ascii) (s : jsstring) : jsstring :=
  match s with
  | [] => []
  | c :: s' => if Ascii.eqb c stop then [] else c :: run_except stop s'
  end.

End JS.

Import JS.

(** ** The bracket placeholder parser ([popup/index.tsx]) *)

Module Parser.

Definition LBRACKET : ascii := "["%char.
Definition RBRACKET : ascii := "]"%char.

(** The pattern [/\[([^\]]+)\]/] anchored at the head of [s]: a ['['], the
    greedy run of code units other than [']'], which must be non-empty, and a
    [']'].  A shorter run is followed by a code unit that is not [']'], so
    backtracking never finds another match. *)
Definition bracket_pattern : Matcher := fun s =>
  match s with
  | c :: s' =>
      if Ascii.eqb c LBRACKET then
        let run := run_except RBRACKET s' in
        if truthy run then
          match skipn (length run) s' with
          | d :: _ =>
              if Ascii.eqb d RBRACKET
              then Some (LBRACKET :: run ++ [RBRACKET], run)
              else None
          | [] => None
          end
        else None
      else None
  | [] => None
  end.

(** An element of the array [parseVariablesFromText] returns:
    [{ name, start, end }]. *)
Record ParsedVariable := mkParsed {
  name : jsstring;
  start : nat;
  end_ : nat
}.

(** The [while ((match = regex.exec(text)) !== null)] loop.  [fuel] bounds
    the number of iterations; [None] means the bound was hit. *)
Fixpoint parse_loop (fuel : nat) (text : jsstring) (lastIndex : nat)
    (variables : list ParsedVariable) : option (list ParsedVariable) :=
  match fuel with
  | 0 => None
  | S fuel' =>
      match exec bracket_pattern text lastIndex with
      | None => Some variables
      | Some m =>
          let variables' :=
            if truthy (match1 m)
            then variables ++ [mkParsed (match1 m) (index m) (index m + length (match0 m))]
            else variables in
          parse_loop fuel' text (lastIndex_after m) variables'
      end
  end.

(** Every iteration consumes at least one code unit, so [length text + 1]
    iterations always suffice (lemma [parse_loop_terminates] below). *)
Definition parseVariablesFromText_run (text : jsstring) : option (list ParsedVariable) :=
  parse_loop (S (length text)) text 0 [].

Definition parseVariablesFromText (text : jsstring) : list ParsedVariable :=
  match parseVariablesFromText_run text with
  | Some variables => variables
  | None => []
  end.

(** *** [InteractiveText]: the rendered children *)

Inductive Element :=
| TextSpan (content : jsstring)
| VariableBox (variableName : jsstring) (clickStart clickEnd : nat).

(** The body of [variables.forEach]: state is [(elements, lastIndex)]. *)
Definition forEach_body (text : jsstring) (st : list Element * nat)
    (variable : ParsedVariable) : list Element * nat :=
  let '(elements, lastIndex) := st in
  let elements1 :=
    if lastIndex <? start variable
    then elements ++ [TextSpan (substring text lastIndex (start variable))]
    else elements in
  (elements1 ++ [VariableBox (name variable) (start variable) (end_ variable)],
   end_ variable).

Definition InteractiveText (text : jsstring) : list Element :=
  let variables := parseVariablesFromText text in
  if length variables =? 0 then [TextSpan text]
  else
    let '(elements, lastIndex) := fold_left (forEach_body text) variables ([], 0) in
    if lastIndex <? length text
    then elements ++ [TextSpan (substring_from text lastIndex)]
    else elements.

(** The text a rendered element shows: a span shows its content, a box
    shows [[{variable.name}]]. *)
Definition elementText (e : Element) : jsstring :=
  match e with
  | TextSpan content => content
  | VariableBox n _ _ => LBRACKET :: n ++ [RBRACKET]
  end.

Definition textContent (elements : list Element) : jsstring :=
  flat_map elementText elements.

End Parser.

(** ** What the specification calls a well-formed bracket placeholder *)

Module PlaceholderSpec.
Import Parser.

(** The text has a well-formed placeholder named [n] at offset [i]: from [i]
    on it reads ['['], the non-empty name [n] free of [']'] (so the closing
    bracket is the nearest following one), and [']']. *)
Definition placeholder_at (t : jsstring) (i : nat) (n : jsstring) : Prop :=
  exists rest,
    skipn i t = LBRACKET :: n ++ RBRACKET :: rest /\ n <> [] /\ ~ In RBRACKET n.

(** The placeholders of [t] from offset [pos] on, scanning left to right
    without overlap: the leftmost one at or after [pos], then those after
    its closing bracket. *)
Inductive placeholders_from (t : jsstring) : nat -> list ParsedVariable -> Prop :=
| no_more pos :
    (forall i n, pos <= i -> ~ placeholder_at t i n) ->
    placeholders_from t pos []
| next_placeholder pos i n rest :
    pos <= i ->
    placeholder_at t i n ->
    (forall i' n', pos <= i' < i -> ~ placeholder_at t i' n') ->
    placeholders_from t (i + length n + 2) rest ->
    placeholders_from t pos (mkParsed n i (i + length n + 2) :: rest).

(** Occurrence [o] is consistent with the text it was parsed from. *)
Definition occurrence_ok (t : jsstring) (o : ParsedVariable) : Prop :=
  end_ o = start o + length (name o) + 2 /\
  slice t (start o) (end_ o) = LBRACKET :: name o ++ [RBRACKET] /\
  name o <> [] /\
  ~ In RBRACKET (name o) /\
  end_ o <= length t.

(** The occurrences lie one after the other, from [lo] on. *)
Fixpoint in_sequence (lo : nat) (l : list ParsedVariable) : Prop :=
  match l with
  | [] => True
  | o :: l' => lo <= start o /\ start o < end_ o /\ in_sequence (end_ o) l'
  end.

(** Two occurrences share no offset. *)
Definition disjoint (a b : ParsedVariable) : Prop :=
  end_ a <= start b \/ end_ b <= start a.

End PlaceholderSpec.

(** ** The local stores ([utils/storage]) *)

Module Storage.

(** The value a rejected promise or a [throw] carries. *)
Definition JsError := jsstring.

Inductive Result (A : Type) : Type :=
| Ok (a : A)
| Throw (e : JsError).
Arguments Ok {A} a.
Arguments Throw {A} e.

Record UserVariable := mkUserVariable {
  id : jsstring;
  name : jsstring;
  value : jsstring;
  description : option jsstring;
  category : option jsstring;
  timestamp : Z
}.

(** [Omit<UserVariable, 'id' | 'timestamp'>]. *)
Record UserVariableInput := mkUserVariableInput {
  in_name : jsstring;
  in_value : jsstring;
  in_description : option jsstring;
  in_category : option jsstring
}.

Record RecentPrompt := mkRecentPrompt {
  rp_id : jsstring;
  rp_original : jsstring;
  rp_optimized : jsstring;
  rp_timestamp : Z
}.

(** [Omit<RecentPrompt, 'id' | 'timestamp'>]. *)
Record RecentPromptInput := mkRecentPromptInput {
  in_original : jsstring;
  in_optimized : jsstring
}.

(** What [browser.storage.local] holds under the keys
    [STORAGE_KEYS.USER_VARIABLES] and [STORAGE_KEYS.RECENT_PROMPTS];
    [None] is an absent key. *)
Record LocalStorage := mkLocalStorage {
  user_variables : option (list UserVariable);
  recent_prompts : option (list RecentPrompt)
}.

(** The host environment: whether [browser?.storage?.local] is defined,
    whether its [get] and [set] calls currently reject (and with which
    error), and the stored contents.  A rejected [set] writes nothing. *)
Record Browser := mkBrowser {
  storage_local_present : bool;
  get_rejects : option JsError;
  set_rejects : option JsError;
  local : LocalStorage
}.

(** Awaited calls run one after the other; a computation takes the
    environment and gives a result or a thrown error, and the environment
    afterwards. *)
Definition M (A : Type) : Type := Browser -> Result A * Browser.

Definition ret {A} (a : A) : M A := fun b => (Ok a, b).
Definition throw {A} (e : JsError) : M A := fun b => (Throw e, b).
Definition bind {A B} (m : M A) (k : A -> M B) : M B :=
  fun b => match m b with
           | (Ok a, b') => k a b'
           | (Throw e, b') => (Throw e, b')
           end.
Definition try_catch {A} (m : M A) (handler : JsError -> M A) : M A :=
  fun b => match m b with
           | (Ok a, b') => (Ok a, b')
           | (Throw e, b') => handler e b'
           end.

Notation "x <- m ;; k" := (bind m (fun x => k))
  (at level 61, m at next level, right associativity).
Notation "m ;;; k" := (bind m (fun _ => k))
  (at level 61, right associativity).

(** *** [Array.prototype] helpers *)

(** [l.findIndex(f)]: the first index whose element satisfies [f], or [-1]. *)
Fixpoint findIndex {A} (f : A -> bool) (l : list A) : Z :=
  match l with
  | [] => (-1)%Z
  | x :: l' =>
      if f x then 0%Z
      else let r := findIndex f l' in
           if (r <? 0)%Z then (-1)%Z else (r + 1)%Z
  end.

(** [l[i] = x] for an index inside the array, the only use in this code (the
    index comes from [findIndex]); outside the array the list is left as it
    is, where JavaScript would extend it. *)
Fixpoint array_set {A} (l : list A) (i : nat) (x : A) : list A :=
  match l, i with
  | [], _ => []
  | _ :: l', 0 => x :: l'
  | y :: l', S i' => y :: array_set l' i' x
  end.

(** [l.push(x)]. *)
Definition push {A} (l : list A) (x : A) : list A := l ++ [x].

(** *** [browser.storage.local] *)

Definition browser_get_user_variables : M (option (list UserVariable)) :=
  fun b => match get_rejects b with
           | Some e => (Throw e, b)
           | None => (Ok (user_variables (local b)), b)
           end.

Definition browser_get_recent_prompts : M (option (list RecentPrompt)) :=
  fun b => match get_rejects b with
           | Some e => (Throw e, b)
           | None => (Ok (recent_prompts (local b)), b)
           end.

Definition with_local (b : Browser) (l : LocalStorage) : Browser :=
  mkBrowser (storage_local_present b) (get_rejects b) (set_rejects b) l.

Definition browser_set_user_variables (variables : list UserVariable) : M unit :=
  fun b => match set_rejects b with
           | Some e => (Throw e, b)
           | None =>
               (Ok tt, with_local b (mkLocalStorage (Some variables) (recent_prompts (local b))))
           end.

Definition browser_set_recent_prompts (prompts : list RecentPrompt) : M unit :=
  fun b => match set_rejects b with
           | Some e => (Throw e, b)
           | None =>
               (Ok tt, with_local b (mkLocalStorage (user_variables (local b)) (Some prompts)))
           end.

(** *** [safeBrowser.storage.local] *)

(** [get]: an absent API and a failing call both give [{}], whose entry
    under any key is [undefined]. *)
Definition safe_get {A} (browser_get : M (option A)) : M (option A) :=
  try_catch
    (fun b => if negb (storage_local_present b) then (Ok None, b) else browser_get b)
    (fun _ => ret None).

(** [set]: an absent API returns without writing; a failing call is logged
    and thrown again. *)
Definition safe_set (browser_set : M unit) : M unit :=
  try_catch
    (fun b => if negb (storage_local_present b) then (Ok tt, b) else browser_set b)
    (fun error => throw error).

(** [x || []]. *)
Definition or_empty {A} (x : option (list A)) : list A :=
  match x with Some l => l | None => [] end.

(** *** Recent prompts *)

Definition getRecentPrompts : M (list RecentPrompt) :=
  result <- safe_get browser_get_recent_prompts ;;
  ret (or_empty result).

(** [uuid] and [now] are what [crypto.randomUUID()] and [Date.now()] return
    during the call. *)
Definition addRecentPrompt (uuid : jsstring) (now : Z) (prompt : RecentPromptInput) : M unit :=
  recent <- getRecentPrompts ;;
  let newPrompt := mkRecentPrompt uuid (in_original prompt) (in_optimized prompt) now in
  let updated := firstn 20 (newPrompt :: recent) in
  safe_set (browser_set_recent_prompts updated).

(** *** User variables *)

Definition getUserVariables : M (list UserVariable) :=
  try_catch
    (stored <- safe_get browser_get_user_variables ;;
     ret (or_empty stored))
    (fun _ => ret []).

Definition addUserVariable (uuid : jsstring) (now : Z) (variable : UserVariableInput)
    : M UserVariable :=
  variables <- getUserVariables ;;
  let newVariable :=
    mkUserVariable uuid (in_name variable) (in_value variable)
                   (in_description variable) (in_category variable) now in
  let existingIndex := findIndex (fun v => jsstring_eqb (name v) (in_name variable)) variables in
  let variables' :=
    if (0 <=? existingIndex)%Z
    then array_set variables (Z.to_nat existingIndex) newVariable
    else push variables newVariable in
  safe_set (browser_set_user_variables variables') ;;;
  ret newVariable.

Definition updateUserVariable (now : Z) (variable : UserVariable) : M UserVariable :=
  variables <- getUserVariables ;;
  let index := findIndex (fun v => jsstring_eqb (id v) (id variable)) variables in
  if (0 <=? index)%Z then
    let updatedVariable :=
      mkUserVariable (id variable) (name variable) (value variable)
                     (description variable) (category variable) now in
    let variables' := array_set variables (Z.to_nat index) updatedVariable in
    safe_set (browser_set_user_variables variables') ;;;
    ret updatedVariable
  else ret variable.

Definition removeUserVariable (id0 : jsstring) : M unit :=
  variables <- getUserVariables ;;
  let filtered := filter (fun v => negb (jsstring_eqb (id v) id0)) variables in
  safe_set (browser_set_user_variables filtered).

(** *** Sequences of store operations *)

Inductive StoreOp :=
| AddUserVariable (uuid : jsstring) (now : Z) (variable : UserVariableInput)
| UpdateUserVariable (now : Z) (variable : UserVariable)
| RemoveUserVariable (id0 : jsstring).

(** The environment after an operation, whatever it returned or threw. *)
Definition run_op (op : StoreOp) (b : Browser) : Browser :=
  match op with
  | AddUserVariable uuid now variable => snd (addUserVariable uuid now variable b)
  | UpdateUserVariable now variable => snd (updateUserVariable now variable b)
  | RemoveUserVariable id0 => snd (removeUserVariable id0 b)
  end.

Definition run_ops (ops : list StoreOp) (b : Browser) : Browser :=
  fold_left (fun b op => run_op op b) ops b.

(** The persisted collection of variables. *)
Definition persisted (b : Browser) : list UserVariable :=
  or_empty (user_variables (local b)).

Definition names (l : list UserVariable) : list jsstring := map name l.

(** An environment with a working storage API and nothing stored. *)
Definition fresh_browser : Browser :=
  mkBrowser true None None (mkLocalStorage None None).

(** The storage API is present and its calls succeed. *)
Definition healthy (b : Browser) : Prop :=
  storage_local_present b = true /\ get_rejects b = None /\ set_rejects b = None.

End Storage.

(** ** The replacement dialog of the popup ([popup/index.tsx]) *)

Module Popup.
Import Storage.

(** [OptimizationResult]: the fields the handlers read or write.  The others
    ([rag_sources], [structure], [variables], [metadata]) are copied by the
    object spread and never inspected. *)
Record OptimizationResult := mkOptimizationResult {
  original : jsstring;
  optimized : jsstring;
  techniques_used : list jsstring
}.

Record Position := mkPosition {
  start : nat;
  end_ : nat
}.

Record VariableReplaceDialog := mkVariableReplaceDialog {
  open : bool;
  variableName : jsstring;
  currentValue : jsstring;
  position : Position;
  useExisting : bool;
  selectedVariable : option UserVariable
}.

(** The state hooks of [App] the handlers use. *)
Record AppState := mkAppState {
  optimizationResult : option OptimizationResult;
  userVariables : list UserVariable;
  variableReplaceDialog : VariableReplaceDialog
}.

Definition closedDialog : VariableReplaceDialog :=
  mkVariableReplaceDialog false [] [] (mkPosition 0 0) false None.

(** [{ ...optimizationResult, optimized: text }]. *)
Definition with_optimized (r : OptimizationResult) (text : jsstring) : OptimizationResult :=
  mkOptimizationResult (original r) text (techniques_used r).

Definition handleInsertVariable (name0 : jsstring) (st : AppState) : AppState :=
  match optimizationResult st with
  | Some r =>
      let updatedPrompt := optimized r ++ str " [" ++ name0 ++ str "]" in
      mkAppState (Some (with_optimized r updatedPrompt))
                 (userVariables st) (variableReplaceDialog st)
  | None => st
  end.

Definition handleVariableClick (name0 : jsstring) (start0 end0 : nat) (st : AppState)
    : AppState :=
  let existingVariable :=
    find (fun v => jsstring_eqb (name v) name0) (userVariables st) in
  let current := match existingVariable with Some v => value v | None => [] end in
  mkAppState (optimizationResult st) (userVariables st)
    (mkVariableReplaceDialog true name0 current (mkPosition start0 end0) false None).

(** The [onChange] of the dialog's text field:
    [{ ...prev, currentValue: e.target.value }]. *)
Definition handleCurrentValueChange (v : jsstring) (st : AppState) : AppState :=
  let d := variableReplaceDialog st in
  mkAppState (optimizationResult st) (userVariables st)
    (mkVariableReplaceDialog (open d) (variableName d) v (position d)
       (useExisting d) (selectedVariable d)).

(** The text after the replacement: [beforeVariable + replacementValue +
    afterVariable]. *)
Definition replaceAt (originalText : jsstring) (pos : Position) (replacementValue : jsstring)
    : jsstring :=
  let beforeVariable := substring originalText 0 (start pos) in
  let afterVariable := substring_from originalText (end_ pos) in
  beforeVariable ++ replacementValue ++ afterVariable.

(** [handleReplaceVariable(useExisting, selectedVariable)], run in the state
    its closure captured; the result is the state after its [set...] calls.
    When [addUserVariable] throws, no state is set.  [uuid] and [now] are
    what [crypto.randomUUID()] and [Date.now()] return inside
    [addUserVariable]. *)
Definition handleReplaceVariable (uuid : jsstring) (now : Z)
    (useExisting0 : bool) (selectedVariable0 : option UserVariable) (st : AppState)
    : M AppState :=
  match optimizationResult st with
  | None => ret st
  | Some r =>
      let variableName0 := variableName (variableReplaceDialog st) in
      let position0 := position (variableReplaceDialog st) in
      chosen <-
        match useExisting0, selectedVariable0 with
        | true, Some sv => ret (value sv, userVariables st)
        | _, _ =>
            newVariable <-
              addUserVariable uuid now
                (mkUserVariableInput variableName0
                   (currentValue (variableReplaceDialog st))
                   (Some (str "Variable for " ++ variableName0))
                   (Some (str "general"))) ;;
            variables <- getUserVariables ;;
            ret (value newVariable, variables)
        end ;;
      let updatedText := replaceAt (optimized r) position0 (fst chosen) in
      ret (mkAppState (Some (with_optimized r updatedText)) (snd chosen) closedDialog)
  end.

Definition handleCancelVariableReplace (st : AppState) : AppState :=
  mkAppState (optimizationResult st) (userVariables st) closedDialog.

End Popup.

(** ** The preview of [PromptWithVariables] *)

Module Preview.

(** [Variable] of [types/index.ts] (a reserved word here): the fields the
    component reads. *)
Record Variable_ := mkVariable {
  id : jsstring;
  name : jsstring;
  description : option jsstring;
  default_value : option jsstring
}.

Definition LBRACE : ascii := "{"%char.
Definition RBRACE : ascii := "}"%char.
Definition DOLLAR : ascii := "$"%char.

(** The pattern [/\{\{([^}]+)\}\}/] anchored at the head of [s]: two ['{'],
    the greedy non-empty run of code units other than ['}'], two ['}'].  As
    for the bracket pattern, a shorter run cannot be followed by ['}']. *)
Definition variable_pattern : Matcher := fun s =>
  match s with
  | c1 :: c2 :: s' =>
      if Ascii.eqb c1 LBRACE && Ascii.eqb c2 LBRACE then
        let run := run_except RBRACE s' in
        if truthy run then
          match skipn (length run) s' with
          | d1 :: d2 :: _ =>
              if Ascii.eqb d1 RBRACE && Ascii.eqb d2 RBRACE
              then Some (LBRACE :: LBRACE :: run ++ [RBRACE; RBRACE], run)
              else None
          | _ => None
          end
        else None
      else None
  | _ => None
  end.

(** White space and line terminators among the code units below 256. *)
Definition is_white_space (c : ascii) : bool :=
  let n := nat_of_ascii c in
  (n =? 9) || (n =? 10) || (n =? 11) || (n =? 12) || (n =? 13) || (n =? 32) || (n =? 160).

Fixpoint trimStart (s : jsstring) : jsstring :=
  match s with
  | c :: s' => if is_white_space c then trimStart s' else s
  | [] => []
  end.

Definition trimEnd (s : jsstring) : jsstring := rev (trimStart (rev s)).

(** [s.trim()]. *)
Definition trim (s : jsstring) : jsstring := trimEnd (trimStart s).

Fixpoint starts_with (pat s : jsstring) : bool :=
  match pat, s with
  | [], _ => true
  | p :: pat', c :: s' => Ascii.eqb p c && starts_with pat' s'
  | _ :: _, [] => false
  end.

(** The offset of the first occurrence of [pat] in [s], counted from [pos]. *)
Fixpoint indexOf_from (pat s : jsstring) (pos : nat) : option nat :=
  if starts_with pat s then Some pos
  else match s with
       | [] => None
       | _ :: s' => indexOf_from pat s' (S pos)
       end.

(** [GetSubstitution] for a string pattern, which has no captures: in the
    replacement text [$$] stands for [$], [$&] for the matched text, [$`]
    and [$'] for the text before and after it; [$] followed by anything
    else, digits included, is kept. *)
Fixpoint getSubstitution (matched s : jsstring) (position : nat) (template : jsstring)
    : jsstring :=
  match template with
  | [] => []
  | d :: tl =>
      if Ascii.eqb d DOLLAR then
        match tl with
        | c :: tl' =>
            if Ascii.eqb c DOLLAR then DOLLAR :: getSubstitution matched s position tl'
            else if Ascii.eqb c "&"%char then matched ++ getSubstitution matched s position tl'
            else if Ascii.eqb c "`"%char then firstn position s ++ getSubstitution matched s position tl'
            else if Ascii.eqb c "'"%char
                 then skipn (position + length matched) s ++ getSubstitution matched s position tl'
            else DOLLAR :: getSubstitution matched s position tl
        | [] => [DOLLAR]
        end
      else d :: getSubstitution matched s position tl
  end.

(** [s.replace(pat, replacement)] with a string pattern: the first
    occurrence only. *)
Definition replace (s pat replacement : jsstring) : jsstring :=
  match indexOf_from pat s 0 with
  | None => s
  | Some pos =>
      firstn pos s ++ getSubstitution pat s pos replacement ++ skipn (pos + length pat) s
  end.

(** One iteration of the preview loop on the match [m]. *)
Definition preview_body (variables : list Variable_) (m : RegExpMatch) (preview : jsstring)
    : jsstring :=
  let variableName := trim (match1 m) in
  if negb (truthy variableName) then preview
  else
    match find (fun v => jsstring_eqb (name v) variableName) variables with
    | Some variable =>
        match default_value variable with
        | Some dv =>
            if truthy dv then
              let placeholder := LBRACE :: LBRACE :: variableName ++ [RBRACE; RBRACE] in
              replace preview placeholder dv
            else preview
        | None => preview
        end
    | None => preview
    end.

(** The [while ((match = variableRegex.exec(value)) !== null)] loop of the
    preview effect; [None] means the iteration bound was hit. *)
Fixpoint preview_loop (fuel : nat) (value : jsstring) (variables : list Variable_)
    (lastIndex : nat) (preview : jsstring) : option jsstring :=
  match fuel with
  | 0 => None
  | S fuel' =>
      match exec variable_pattern value lastIndex with
      | None => Some preview
      | Some m =>
          preview_loop fuel' value variables (lastIndex_after m) (preview_body variables m preview)
      end
  end.

Definition generatePreview_run (value : jsstring) (variables : list Variable_) : option jsstring :=
  preview_loop (S (length value)) value variables 0 value.

Definition generatePreview (value : jsstring) (variables : list Variable_) : jsstring :=
  match generatePreview_run value variables with
  | Some preview => preview
  | None => value
  end.

(** The effect: the new [previewText]. *)
Definition previewEffect (showPreview : bool) (value : jsstring) (variables : list Variable_)
    (previewText : jsstring) : jsstring :=
  if negb showPreview || negb (truthy value) then previewText
  else
    let preview := generatePreview value variables in
    if negb (jsstring_eqb preview previewText) then preview else previewText.

(** *** The preview the specification describes

    Every occurrence whose trimmed name is that of a variable with a
    non-empty value has its own span replaced by the value; all other text
    is copied. *)
Definition span_text (variables : list Variable_) (m : RegExpMatch) : jsstring :=
  match find (fun v => jsstring_eqb (name v) (trim (match1 m))) variables with
  | Some variable =>
      match default_value variable with
      | Some dv => if truthy dv then dv else match0 m
      | None => match0 m
      end
  | None => match0 m
  end.

Fixpoint preview_by_spans_loop (fuel : nat) (value : jsstring) (variables : list Variable_)
    (lastIndex : nat) : jsstring :=
  match fuel with
  | 0 => slice_from value lastIndex
  | S fuel' =>
      match exec variable_pattern value lastIndex with
      | None => slice_from value lastIndex
      | Some m =>
          slice value lastIndex (index m) ++ span_text variables m
          ++ preview_by_spans_loop fuel' value variables (lastIndex_after m)
      end
  end.

Definition preview_by_spans (value : jsstring) (variables : list Variable_) : jsstring :=
  preview_by_spans_loop (S (length value)) value variables 0.

End Preview.

(** ** Notions used to state the properties *)

Module Derived.
Import Storage.

(** What [getUserVariables] reads: the persisted collection when the
    storage API is present and its [get] succeeds, nothing otherwise. *)
Definition visible (b : Browser) : list UserVariable :=
  if storage_local_present b then
    match get_rejects b with
    | None => persisted b
    | Some _ => []
    end
  else [].

(** The environment after a successful write of the variable collection. *)
Definition written (b : Browser) (variables : list UserVariable) : Browser :=
  with_local b (mkLocalStorage (Some variables) (recent_prompts (local b))).

Definition named (n : jsstring) (v : UserVariable) : bool := jsstring_eqb (name v) n.

Definition has_id (i : jsstring) (v : UserVariable) : bool := jsstring_eqb (id v) i.

(** The record [addUserVariable] builds. *)
Definition newVariable (uuid : jsstring) (now : Z) (variable : UserVariableInput) : UserVariable :=
  mkUserVariable uuid (in_name variable) (in_value variable)
                 (in_description variable) (in_category variable) now.

(** The collection [addUserVariable] writes when it read [variables]. *)
Definition upsert (nv : UserVariable) (variables : list UserVariable) : list UserVariable :=
  let existingIndex := findIndex (named (name nv)) variables in
  if (0 <=? existingIndex)%Z
  then array_set variables (Z.to_nat existingIndex) nv
  else push variables nv.

(** The record [updateUserVariable] builds. *)
Definition updatedVariable (now : Z) (variable : UserVariable) : UserVariable :=
  mkUserVariable (id variable) (name variable) (value variable)
                 (description variable) (category variable) now.

(** The recent-prompt buffer and the entry [addRecentPrompt] builds. *)
Definition buffer (b : Browser) : list RecentPrompt := or_empty (recent_prompts (local b)).

Definition Addition : Type := jsstring * Z * RecentPromptInput.

Definition entry (a : Addition) : RecentPrompt :=
  let '(uuid, now, prompt) := a in
  mkRecentPrompt uuid (in_original prompt) (in_optimized prompt) now.

Definition add_all (adds : list Addition) (b : Browser) : Browser :=
  fold_left (fun b a => let '(uuid, now, prompt) := a in snd (addRecentPrompt uuid now prompt b))
            adds b.

(** The value [handleReplaceVariable] puts into the text. *)
Definition replacementValue (useExisting0 : bool) (selectedVariable0 : option UserVariable)
    (st : Popup.AppState) : jsstring :=
  match useExisting0, selectedVariable0 with
  | true, Some sv => value sv
  | _, _ => Popup.currentValue (Popup.variableReplaceDialog st)
  end.

End Derived.

(** ** Concrete stores, texts and states used in the examples *)

Module Examples.
Import Storage Derived.

Definition varX (v : string) : UserVariableInput :=
  mkUserVariableInput (str "X") (str v) None None.

Definition varA : UserVariableInput := mkUserVariableInput (str "A") (str "1") None None.
Definition varB : UserVariableInput := mkUserVariableInput (str "B") (str "2") None None.

(** The edit dialog saves a variable under the id it was opened with and
    whatever name was typed: here the variable created as ["B"] is saved
    with the name ["A"]. *)
Definition rename_B_to_A : list StoreOp :=
  [AddUserVariable (str "id-1") 1 varA;
   AddUserVariable (str "id-2") 2 varB;
   UpdateUserVariable 3 (mkUserVariable (str "id-2") (str "A") (str "2") None None 3)].

Definition stored_A : list UserVariable :=
  [mkUserVariable (str "id-1") (str "A") (str "1") None None 1].

(** An environment that holds one variable and works. *)
Definition healthy_A : Browser :=
  mkBrowser true None None (mkLocalStorage (Some stored_A) None).



(** An environment that holds one variable and whose [get] rejects. *)
Definition get_fails : Browser :=
  mkBrowser true (Some (str "read error")) None (mkLocalStorage (Some stored_A) None).

(** An environment that holds one variable and whose [set] rejects. *)
Definition set_fails : Browser :=
  mkBrowser true None (Some (str "write error")) (mkLocalStorage (Some stored_A) None).

(** Twenty-one additions numbered 1 to 21. *)
Definition numbered (n : nat) : Addition :=
  (str "id-" ++ repeat "x"%char n, Z.of_nat n,
   mkRecentPromptInput (str "prompt") (str "result")).

Definition twenty_one : list Addition := map numbered (seq 1 21).

(** The scenario of the specification: the first [NAME] of
    ["Hi [NAME] and [NAME] again"] is clicked, ["Bob"] is typed as the new
    value, and the dialog is confirmed. *)
Definition greeting : Popup.OptimizationResult :=
  Popup.mkOptimizationResult (str "greet twice") (str "Hi [NAME] and [NAME] again") [].

Definition first_NAME_selected : Popup.AppState :=
  Popup.handleCurrentValueChange (str "Bob")
    (Popup.handleVariableClick (str "NAME") 3 9
       (Popup.mkAppState (Some greeting) [] Popup.closedDialog)).

Definition name_is_Bob : list Preview.Variable_ :=
  [Preview.mkVariable (str "1") (str "name") None (Some (str "Bob"))].

End Examples.

(** ** More of [utils/storage]: removing keys *)

Module StorageMore.
Import Storage.

(** [browser.storage.local.remove(key)] and [clear()].  Whether the call
    rejects is given with the call: the environment record carries the
    status of [get] and [set] only. *)
Definition browser_remove_user_variables (rejects : option JsError) : M unit :=
  fun b => match rejects with
           | Some e => (Throw e, b)
           | None => (Ok tt, with_local b (mkLocalStorage None (recent_prompts (local b))))
           end.

Definition browser_remove_recent_prompts (rejects : option JsError) : M unit :=
  fun b => match rejects with
           | Some e => (Throw e, b)
           | None => (Ok tt, with_local b (mkLocalStorage (user_variables (local b)) None))
           end.

Definition browser_clear (rejects : option JsError) : M unit :=
  fun b => match rejects with
           | Some e => (Throw e, b)
           | None => (Ok tt, with_local b (mkLocalStorage None None))
           end.

(** [safeBrowser.storage.local.remove] and [clear]: an absent API returns
    without doing anything; a failing call is logged and thrown again. *)
Definition safe_remove (browser_remove : M unit) : M unit :=
  try_catch
    (fun b => if negb (storage_local_present b) then (Ok tt, b) else browser_remove b)
    (fun error => throw error).

Definition safe_clear (browser_clear0 : M unit) : M unit :=
  try_catch
    (fun b => if negb (storage_local_present b) then (Ok tt, b) else browser_clear0 b)
    (fun error => throw error).

Definition clearRecentPrompts (rejects : option JsError) : M unit :=
  safe_remove (browser_remove_recent_prompts rejects).

Definition clearUserVariables (rejects : option JsError) : M unit :=
  safe_remove (browser_remove_user_variables rejects).

Definition clearAllStorage (rejects : option JsError) : M unit :=
  safe_clear (browser_clear rejects).

(** The ids of a collection. *)
Definition ids (l : list UserVariable) : list jsstring := map id l.

End StorageMore.

(** ** Notions used to state the further properties of the texts *)

Module TextNotions.
Import Parser.

(** The occurrences the clickable boxes of a rendering pass to
    [onVariableClick]. *)
Definition boxes (elements : list Element) : list ParsedVariable :=
  flat_map (fun e => match e with
                     | VariableBox n s e0 => [mkParsed n s e0]
                     | TextSpan _ => []
                     end) elements.

(** The text spans of a rendering. *)
Definition spans (elements : list Element) : list jsstring :=
  flat_map (fun e => match e with
                     | TextSpan content => [content]
                     | VariableBox _ _ _ => []
                     end) elements.

(** The end of the last occurrence of a scan that started at [pos]. *)
Fixpoint last_end (pos : nat) (l : list ParsedVariable) : nat :=
  match l with
  | [] => pos
  | o :: l' => last_end (end_ o) l'
  end.

(** An occurrence moved from offset [from] to offset [to]. *)
Definition moved (from to : nat) (o : ParsedVariable) : ParsedVariable :=
  mkParsed (name o) (start o - from + to) (end_ o - from + to).

End TextNotions.

(** ** The parsing effect of [PromptWithVariables] *)

Module Mustache.
Import Preview.

(** [ParsedVariable] of the component. *)
Record ParsedVariable := mkParsedVariable {
  name : jsstring;
  startIndex : nat;
  endIndex : nat;
  isValid : bool;
  variable : option Variable_
}.

(** One iteration of the parsing loop on the match [m]. *)
Definition parse_body (variables : list Variable_) (m : RegExpMatch)
    (matches : list ParsedVariable) : list ParsedVariable :=
  let variableName := trim (match1 m) in
  if negb (truthy variableName) then matches
  else
    let variable0 := find (fun v => jsstring_eqb (Preview.name v) variableName) variables in
    matches ++ [mkParsedVariable variableName (index m) (index m + length (match0 m))
                  (match variable0 with Some _ => true | None => false end) variable0].

(** The [while ((match = variableRegex.exec(value)) !== null)] loop of the
    parsing effect; [None] means the iteration bound was hit. *)
Fixpoint parse_loop (fuel : nat) (value : jsstring) (variables : list Variable_)
    (lastIndex : nat) (matches : list ParsedVariable) : option (list ParsedVariable) :=
  match fuel with
  | 0 => None
  | S fuel' =>
      match exec variable_pattern value lastIndex with
      | None => Some matches
      | Some m =>
          parse_loop fuel' value variables (lastIndex_after m) (parse_body variables m matches)
      end
  end.

Definition parseEffect_run (value : jsstring) (variables : list Variable_)
    : option (list ParsedVariable) :=
  parse_loop (S (length value)) value variables 0 [].

(** The [matches] the effect computes, which become [parsedVariables]. *)
Definition parseEffect (value : jsstring) (variables : list Variable_) : list ParsedVariable :=
  match parseEffect_run value variables with
  | Some matches => matches
  | None => []
  end.

(** [parsedVariables.filter(v => !v.isValid)]. *)
Definition invalidVariables (parsedVariables : list ParsedVariable) : list ParsedVariable :=
  filter (fun v => negb (isValid v)) parsedVariables.

(** [parsedVariables.filter(v => v.isValid).map(v => v.variable!)]. *)
Definition usedVariables (parsedVariables : list ParsedVariable) : list (option Variable_) :=
  map variable (filter isValid parsedVariables).

(** The occurrences lie one after the other, from [lo] on. *)
Fixpoint in_order (lo : nat) (l : list ParsedVariable) : Prop :=
  match l with
  | [] => True
  | o :: l' => lo <= startIndex o /\ startIndex o < endIndex o /\ in_order (endIndex o) l'
  end.

(** What holds of an occurrence the effect reports for [value]: its span
    reads ["{{"], a text without ["}"] and ["}}"], and its name is that
    text trimmed, not empty. *)
Definition reported (value : jsstring) (o : ParsedVariable) : Prop :=
  exists raw,
    slice value (startIndex o) (endIndex o) = LBRACE :: LBRACE :: raw ++ [RBRACE; RBRACE] /\
    endIndex o = startIndex o + length raw + 4 /\
    endIndex o <= length value /\
    ~ In RBRACE raw /\
    name o = trim raw /\
    name o <> [].

(** The default value of a variable is missing or empty. *)
Definition no_default (v : Variable_) : Prop :=
  default_value v = None \/ default_value v = Some [].

End Mustache.

(** ** [VariableCreator]: the generated variable name *)

Module VariableCreator.
Import Preview.

(** The class [\w]: letters, digits and the underscore. *)
Definition is_word (c : ascii) : bool :=
  let n := nat_of_ascii c in
  ((48 <=? n) && (n <=? 57)) || ((65 <=? n) && (n <=? 90))
  || ((97 <=? n) && (n <=? 122)) || (n =? 95).

(** [s.replace(/[^\w\s]/g, '')]; the class [\s] is the white space of
    [trim]. *)
Definition removeOthers (s : jsstring) : jsstring :=
  filter (fun c => is_word c || is_white_space c) s.

(** [s.split(/\s+/)]: the texts between the runs of white space, with an
    empty first or last text when [s] starts or ends with white space, and
    [[""]] for the empty text.  [cur] is the text being read, [in_sep]
    tells that the previous code unit was white space. *)
Fixpoint split_ws (s : jsstring) (cur : jsstring) (in_sep : bool) : list jsstring :=
  match s with
  | [] => [cur]
  | c :: s' =>
      if is_white_space c then
        if in_sep then split_ws s' cur true else cur :: split_ws s' [] true
      else split_ws s' (cur ++ [c]) false
  end.

Definition split (s : jsstring) : list jsstring := split_ws s [] false.

(** [l.join(sep)]. *)
Fixpoint join (sep : jsstring) (l : list jsstring) : jsstring :=
  match l with
  | [] => []
  | [x] => x
  | x :: l' => x ++ sep ++ join sep l'
  end.

(** [toLowerCase] on the code units below 256: the letters [A-Z] and the
    accented capitals 192 to 222, the sign 215 apart. *)
Definition toLowerCase_unit (c : ascii) : ascii :=
  let n := nat_of_ascii c in
  if ((65 <=? n) && (n <=? 90)) || ((192 <=? n) && (n <=? 222) && negb (n =? 215))
  then ascii_of_nat (n + 32) else c.

Definition toLowerCase (s : jsstring) : jsstring := map toLowerCase_unit s.

(** The name [generateVariableName] puts into the form. *)
Definition generateVariableName (selectedText : jsstring) : jsstring :=
  let cleanText :=
    toLowerCase (join (str "_") (firstn 3 (split (trim (removeOthers selectedText))))) in
  if truthy cleanText then cleanText else str "new_variable".

(** A lower-case letter, a digit or the underscore. *)
Definition is_name_unit (c : ascii) : bool :=
  let n := nat_of_ascii c in
  ((48 <=? n) && (n <=? 57)) || ((97 <=? n) && (n <=? 122)) || (n =? 95).

End VariableCreator.

(** ** The error handling utility ([utils/errorHandler.ts]) *)

Module ErrorHandler.

(** What a [catch] clause can receive: a [PrompTabError], another [Error]
    with its message, a string, or any other value. *)
Inductive Thrown :=
| ThrownPrompTab (e : PrompTabError)
| ThrownError (message : jsstring)
| ThrownString (s : jsstring)
| ThrownOther (tag : nat)
with PrompTabError :=
| mkPrompTabError (message code context : jsstring) (originalError : option Thrown).

Definition message (e : PrompTabError) : jsstring :=
  match e with mkPrompTabError m _ _ _ => m end.
Definition code (e : PrompTabError) : jsstring :=
  match e with mkPrompTabError _ c _ _ => c end.
Definition context (e : PrompTabError) : jsstring :=
  match e with mkPrompTabError _ _ c _ => c end.
Definition originalError (e : PrompTabError) : option Thrown :=
  match e with mkPrompTabError _ _ _ o => o end.

Record ErrorInfo := mkErrorInfo {
  info_message : jsstring;
  info_code : option jsstring;
  info_context : option jsstring;
  info_originalError : option Thrown
}.

(** [x || d] for an optional string: an absent or empty [x] gives [d]. *)
Definition or_default (x : option jsstring) (d : jsstring) : jsstring :=
  match x with
  | Some (c :: r) => c :: r
  | _ => d
  end.

(** The constructor of [PrompTabError]. *)
Definition new_PrompTabError (info : ErrorInfo) : PrompTabError :=
  mkPrompTabError (info_message info)
                  (or_default (info_code info) (str "UNKNOWN_ERROR"))
                  (or_default (info_context info) (str "general"))
                  (info_originalError info).

Inductive Level := LevelError | LevelWarn.

(** A call of [logger.error] or [logger.warn]. *)
Record LogEntry := mkLogEntry {
  level : Level;
  text : jsstring;
  detail : option Thrown
}.

(** [handleError(error, context)]: the error returned and the lines logged. *)
Definition handleError (error : Thrown) (context0 : jsstring) : PrompTabError * list LogEntry :=
  match error with
  | ThrownPrompTab e => (e, [])
  | _ =>
      let errorInfo :=
        match error with
        | ThrownError m => mkErrorInfo m None (Some context0) (Some error)
        | ThrownString s => mkErrorInfo s None (Some context0) None
        | _ => mkErrorInfo (str "An unknown error occurred") None (Some context0) (Some error)
        end in
      let promptabError := new_PrompTabError errorInfo in
      (promptabError,
       [mkLogEntry LevelError
          (str "[" ++ context0 ++ str "] " ++ message promptabError)
          (originalError promptabError)])
  end.

(** The outcome of running [fn]: the value it returns or what it throws. *)
Inductive Outcome (T : Type) : Type :=
| Returned (v : T)
| Threw (error : Thrown).
Arguments Returned {T} v.
Arguments Threw {T} error.

(** [withErrorHandling(fn, context, fallback)], given the outcome of [fn];
    [fallback] is [None] when it is [undefined]. *)
Definition withErrorHandling {T} (fn : Outcome T) (context0 : jsstring) (fallback : option T)
    : Outcome T * list LogEntry :=
  match fn with
  | Returned v => (Returned v, [])
  | Threw error =>
      let '(promptabError, logged) := handleError error context0 in
      match fallback with
      | Some v =>
          (Returned v,
           logged ++ [mkLogEntry LevelWarn
                        (str "[" ++ context0 ++ str "] Using fallback value due to error: "
                         ++ message promptabError) None])
      | None => (Threw (ThrownPrompTab promptabError), logged)
      end
  end.

(** [withSyncErrorHandling] has the same body without the [await]. *)
Definition withSyncErrorHandling {T} (fn : Outcome T) (context0 : jsstring)
    (fallback : option T) : Outcome T * list LogEntry :=
  match fn with
  | Returned v => (Returned v, [])
  | Threw error =>
      let '(promptabError, logged) := handleError error context0 in
      match fallback with
      | Some v =>
          (Returned v,
           logged ++ [mkLogEntry LevelWarn
                        (str "[" ++ context0 ++ str "] Using fallback value due to error: "
                         ++ message promptabError) None])
      | None => (Threw (ThrownPrompTab promptabError), logged)
      end
  end.

Definition getUserFriendlyMessage (error : Thrown) : jsstring :=
  match error with
  | ThrownPrompTab e =>
      if jsstring_eqb (context e) (str "auth")
      then str "Authentication failed. Please check your credentials."
      else if jsstring_eqb (context e) (str "api")
      then str "Service temporarily unavailable. Please try again later."
      else if jsstring_eqb (context e) (str "storage")
      then str "Unable to save data. Please check your browser settings."
      else if jsstring_eqb (context e) (str "network")
      then str "Network connection error. Please check your internet connection."
      else message e
  | ThrownError m => m
  | _ => str "An unexpected error occurred. Please try again."
  end.

(** The error is not a [PrompTabError]. *)
Definition foreign (error : Thrown) : Prop :=
  match error with ThrownPrompTab _ => False | _ => True end.

End ErrorHandler.

(** ** The variable manager of the popup ([popup/index.tsx]) *)

Module VariableManager.
Import Storage.

Record CreateVariableDialog := mkCreateVariableDialog {
  open : bool;
  editingId : option jsstring;
  name : jsstring;
  value : jsstring;
  description : jsstring;
  category : jsstring
}.

(** The state hooks of [App] these handlers use. *)
Record State := mkState {
  userVariables : list UserVariable;
  createVariableDialog : CreateVariableDialog;
  error : option jsstring
}.

Definition closedDialog : CreateVariableDialog :=
  mkCreateVariableDialog false None [] [] [] [].

Definition handleCreateVariable (st : State) : State :=
  mkState (userVariables st) (mkCreateVariableDialog true None [] [] [] []) (error st).

(** [x || ''] for an optional string. *)
Definition or_blank (x : option jsstring) : jsstring :=
  match x with Some s => s | None => [] end.

Definition handleEditVariable (variable : UserVariable) (st : State) : State :=
  mkState (userVariables st)
    (mkCreateVariableDialog true (Some (Storage.id variable)) (Storage.name variable)
       (Storage.value variable) (or_blank (Storage.description variable))
       (or_blank (Storage.category variable)))
    (error st).

Definition handleCancelVariableEdit (st : State) : State :=
  mkState (userVariables st) closedDialog (error st).

(** The store calls inside the [try] of [handleSaveVariable]: an update
    when the dialog holds a non-empty [editingId], an addition otherwise,
    then the refresh.  [nowDialog] is the time the handler reads, [uuid]
    and [nowStore] are what the store function obtains. *)
Definition save_calls (uuid : jsstring) (nowDialog nowStore : Z) (d : CreateVariableDialog)
    : M (list UserVariable) :=
  match editingId d with
  | Some (c :: r) =>
      updateUserVariable nowStore
        (mkUserVariable (c :: r) (name d) (value d)
                        (Some (description d)) (Some (category d)) nowDialog) ;;;
      getUserVariables
  | _ =>
      addUserVariable uuid nowStore
        (mkUserVariableInput (name d) (value d)
                             (Some (description d)) (Some (category d))) ;;;
      getUserVariables
  end.

(** [handleSaveVariable]: the state after its [set...] calls, and the
    environment.  The handler catches what the store throws. *)
Definition handleSaveVariable (uuid : jsstring) (nowDialog nowStore : Z) (st : State)
    (b : Browser) : State * Browser :=
  let d := createVariableDialog st in
  if negb (truthy (Preview.trim (name d))) then
    (mkState (userVariables st) d (Some (str "Variable name is required")), b)
  else if negb (truthy (Preview.trim (value d))) then
    (mkState (userVariables st) d (Some (str "Variable value is required")), b)
  else
    match save_calls uuid nowDialog nowStore d b with
    | (Ok variables, b') => (mkState variables closedDialog (error st), b')
    | (Throw _, b') =>
        (mkState (userVariables st) d (Some (str "Failed to save variable")), b')
    end.

Definition handleDeleteVariable (id0 : jsstring) (st : State) (b : Browser)
    : State * Browser :=
  match (removeUserVariable id0 ;;; getUserVariables) b with
  | (Ok variables, b') => (mkState variables (createVariableDialog st) (error st), b')
  | (Throw _, b') =>
      (mkState (userVariables st) (createVariableDialog st)
               (Some (str "Failed to delete variable")), b')
  end.

(** The dialog passes the validation of [handleSaveVariable]. *)
Definition filled (d : CreateVariableDialog) : Prop :=
  Preview.trim (name d) <> [] /\ Preview.trim (value d) <> [].

(** The dialog creates (rather than edits) a variable. *)
Definition creating (d : CreateVariableDialog) : Prop :=
  editingId d = None \/ editingId d = Some [].

End VariableManager.

(** * Properties *)

Import Parser.
Import PlaceholderSpec.

Section RegExpFacts.

Variable p : Matcher.

Lemma exec_at_some rest pos m :
  exec_at p rest pos = Some m ->
  exists k, k <= length rest /\ index m = pos + k /\
    p (skipn k rest) = Some (match0 m, match1 m) /\
    forall j, j < k -> p (skipn j rest) = None.
Proof.
  revert pos. induction rest as [|c rest IH]; intros pos H; simpl in H.
  - destruct (p []) as [[m0 m1]|] eqn:E; [|discriminate].
    inversion H; subst; clear H. exists 0; simpl. rewrite E.
    repeat split; intros; lia.
  - destruct (p (c :: rest)) as [[m0 m1]|] eqn:E.
    + inversion H; subst; clear H. exists 0; simpl. rewrite E.
      repeat split; intros; lia.
    + apply IH in H. destruct H as (k & Hk & Hi & Hp & Hn).
      exists (S k); simpl. repeat split; try lia; auto.
      intros [|j] Hj; simpl; auto. apply Hn; lia.
Qed.

Lemma exec_at_none rest pos :
  exec_at p rest pos = None ->
  forall j, j <= length rest -> p (skipn j rest) = None.
Proof.
  revert pos. induction rest as [|c rest IH]; intros pos H j Hj; simpl in H.
  - destruct (p []) as [[m0 m1]|] eqn:E; [discriminate|].
    simpl in Hj. replace j with 0 by lia. exact E.
  - destruct (p (c :: rest)) as [[m0 m1]|] eqn:E; [discriminate|].
    destruct j as [|j]; simpl; auto. eapply IH; eauto. simpl in Hj; lia.
Qed.

Lemma exec_some text lastIndex m :
  exec p text lastIndex = Some m ->
  lastIndex <= index m <= length text /\
  p (skipn (index m) text) = Some (match0 m, match1 m) /\
  forall j, lastIndex <= j < index m -> p (skipn j text) = None.
Proof.
  unfold exec. destruct (Nat.ltb_spec (length text) lastIndex); [discriminate|].
  intros E. apply exec_at_some in E. destruct E as (k & Hk & Hi & Hp & Hn).
  rewrite length_skipn in Hk. rewrite skipn_skipn in Hp.
  rewrite Hi. replace (lastIndex + k) with (k + lastIndex) by lia.
  repeat split; try lia; auto.
  intros j Hj. specialize (Hn (j - lastIndex)).
  rewrite skipn_skipn in Hn. replace (j - lastIndex + lastIndex) with j in Hn by lia.
  apply Hn; lia.
Qed.

Lemma exec_none text lastIndex :
  exec p text lastIndex = None ->
  forall j, lastIndex <= j <= length text -> p (skipn j text) = None.
Proof.
  unfold exec. destruct (Nat.ltb_spec (length text) lastIndex); [intros; lia|].
  intros E j Hj. pose proof (exec_at_none _ _ E (j - lastIndex)) as Hn.
  rewrite length_skipn, skipn_skipn in Hn.
  replace (j - lastIndex + lastIndex) with j in Hn by lia. apply Hn; lia.
Qed.

End RegExpFacts.

(** ** Facts about the bracket pattern *)

Lemma run_except_split stop s :
  run_except stop s ++ skipn (length (run_except stop s)) s = s.
Proof.
  induction s as [|c s IH]; simpl; auto.
  destruct (Ascii.eqb c stop); simpl; [reflexivity | now rewrite IH].
Qed.

Lemma run_except_free stop s : ~ In stop (run_except stop s).
Proof.
  induction s as [|c s IH]; simpl; auto.
  destruct (Ascii.eqb_spec c stop); simpl; intuition congruence.
Qed.

Lemma run_except_app stop n rest :
  ~ In stop n -> run_except stop (n ++ stop :: rest) = n.
Proof.
  induction n as [|c n IH]; simpl; intros H.
  - now rewrite Ascii.eqb_refl.
  - destruct (Ascii.eqb_spec c stop); [intuition|]. f_equal; apply IH; intuition.
Qed.

Lemma bracket_pattern_some s m0 m1 :
  bracket_pattern s = Some (m0, m1) ->
  m0 = LBRACKET :: m1 ++ [RBRACKET] /\ m1 <> [] /\ ~ In RBRACKET m1 /\
  exists rest, s = LBRACKET :: m1 ++ RBRACKET :: rest.
Proof.
  unfold bracket_pattern. destruct s as [|c s']; [discriminate|].
  destruct (Ascii.eqb_spec c LBRACKET) as [->|]; [|discriminate].
  pose proof (run_except_split RBRACKET s') as Hs.
  pose proof (run_except_free RBRACKET s') as Hf.
  destruct (run_except RBRACKET s') as [|r run] eqn:Er; [discriminate|].
  cbv zeta. cbn [truthy].
  destruct (skipn (length (r :: run)) s') as [|d rest] eqn:Ek; [discriminate|].
  destruct (Ascii.eqb_spec d RBRACKET) as [->|]; [|discriminate].
  intros H; inversion H; subst; clear H.
  repeat split; auto; try discriminate.
  exists rest. reflexivity.
Qed.

Lemma bracket_pattern_complete n rest :
  n <> [] -> ~ In RBRACKET n ->
  bracket_pattern (LBRACKET :: n ++ RBRACKET :: rest) = Some (LBRACKET :: n ++ [RBRACKET], n).
Proof.
  intros Hne Hfree. unfold bracket_pattern. rewrite Ascii.eqb_refl. cbv zeta.
  rewrite (run_except_app _ _ rest Hfree).
  assert (Hk : skipn (length n) (n ++ RBRACKET :: rest) = RBRACKET :: rest)
    by (rewrite skipn_app, Nat.sub_diag, skipn_all; reflexivity).
  rewrite Hk. destruct n; [congruence|]. reflexivity.
Qed.

(** The pattern matches at offset [i] exactly when the text has a
    well-formed placeholder there; the capture is its name. *)
Lemma bracket_pattern_placeholder t i m0 m1 :
  bracket_pattern (skipn i t) = Some (m0, m1) <->
  placeholder_at t i m1 /\ m0 = LBRACKET :: m1 ++ [RBRACKET].
Proof.
  split.
  - intros H. apply bracket_pattern_some in H.
    destruct H as (-> & Hne & Hfree & rest & Hs). split; auto.
    exists rest; auto.
  - intros [(rest & Hs & Hne & Hfree) ->]. rewrite Hs.
    now apply bracket_pattern_complete.
Qed.

Lemma placeholder_at_unique t i n n' :
  placeholder_at t i n -> placeholder_at t i n' -> n = n'.
Proof.
  intros H H'.
  assert (E : bracket_pattern (skipn i t) = Some (LBRACKET :: n ++ [RBRACKET], n))
    by (apply bracket_pattern_placeholder; auto).
  assert (E' : bracket_pattern (skipn i t) = Some (LBRACKET :: n' ++ [RBRACKET], n'))
    by (apply bracket_pattern_placeholder; auto).
  congruence.
Qed.

Lemma placeholder_at_bound t i n :
  placeholder_at t i n -> i + length n + 2 <= length t.
Proof.
  intros (rest & Hs & _ & _).
  assert (L : length (skipn i t) = length (LBRACKET :: n ++ RBRACKET :: rest)) by now rewrite Hs.
  rewrite length_skipn in L. simpl in L. rewrite length_app in L. simpl in L. lia.
Qed.

(** ** The parsing loop against the specification *)

Lemma exec_bracket_some text lastIndex m :
  exec bracket_pattern text lastIndex = Some m ->
  lastIndex <= index m /\
  placeholder_at text (index m) (match1 m) /\
  match0 m = LBRACKET :: match1 m ++ [RBRACKET] /\
  forall i n, lastIndex <= i < index m -> ~ placeholder_at text i n.
Proof.
  intros E. apply exec_some in E. destruct E as (Hi & Hp & Hn).
  apply bracket_pattern_placeholder in Hp. destruct Hp as [Hp Hm].
  repeat split; auto; try lia.
  intros i n Hin Hat. specialize (Hn i Hin).
  assert (bracket_pattern (skipn i text) = Some (LBRACKET :: n ++ [RBRACKET], n))
    by (apply bracket_pattern_placeholder; auto).
  congruence.
Qed.

Lemma exec_bracket_none text lastIndex :
  exec bracket_pattern text lastIndex = None ->
  forall i n, lastIndex <= i -> ~ placeholder_at text i n.
Proof.
  intros E i n Hi Hat.
  pose proof (placeholder_at_bound _ _ _ Hat) as Hb.
  pose proof (exec_none _ _ _ E i) as Hn.
  assert (bracket_pattern (skipn i text) = Some (LBRACKET :: n ++ [RBRACKET], n))
    by (apply bracket_pattern_placeholder; auto).
  rewrite Hn in H; [discriminate | lia].
Qed.

(** The loop appends to [variables] the placeholders found from
    [lastIndex] on. *)
Lemma parse_loop_sound fuel : forall text lastIndex variables out,
  parse_loop fuel text lastIndex variables = Some out ->
  exists found, out = variables ++ found /\ placeholders_from text lastIndex found.
Proof.
  induction fuel as [|fuel IH]; intros text lastIndex variables out H; simpl in H.
  - discriminate.
  - destruct (exec bracket_pattern text lastIndex) as [m|] eqn:E.
    + pose proof (exec_bracket_some _ _ _ E) as (Hle & Hat & Hm0 & Hleast).
      assert (Ht : truthy (match1 m) = true).
      { destruct Hat as (_ & _ & Hne & _). destruct (match1 m); [congruence | reflexivity]. }
      rewrite Ht in H. apply IH in H. destruct H as (found & -> & Hfound).
      exists (mkParsed (match1 m) (index m) (index m + length (match0 m)) :: found).
      split; [now rewrite <- app_assoc|].
      assert (Hlen : index m + length (match0 m) = index m + length (match1 m) + 2).
      { rewrite Hm0. simpl. rewrite length_app. simpl. lia. }
      unfold lastIndex_after in Hfound. rewrite Hlen in *.
      now apply next_placeholder.
    + inversion H; subst. exists []. split; [now rewrite app_nil_r|].
      apply no_more. now apply exec_bracket_none.
Qed.

(** The loop ends within [length text + 1 - lastIndex] iterations. *)
Lemma parse_loop_fuel fuel : forall text lastIndex variables,
  0 < fuel -> length text < lastIndex + fuel ->
  exists out, parse_loop fuel text lastIndex variables = Some out.
Proof.
  induction fuel as [|fuel IH]; intros text lastIndex variables Hpos Hfuel; [lia|].
  simpl. destruct (exec bracket_pattern text lastIndex) as [m|] eqn:E; [|eauto].
  pose proof (exec_bracket_some _ _ _ E) as (Hle & Hat & Hm0 & _).
  apply placeholder_at_bound in Hat.
  assert (Hlen : lastIndex_after m = index m + length (match1 m) + 2).
  { unfold lastIndex_after. rewrite Hm0. simpl. rewrite length_app. simpl. lia. }
  apply IH; lia.
Qed.

Lemma parse_loop_terminates text :
  exists out, parseVariablesFromText_run text = Some out.
Proof. apply parse_loop_fuel; lia. Qed.

Lemma parseVariablesFromText_run_eq text :
  parseVariablesFromText_run text = Some (parseVariablesFromText text).
Proof.
  unfold parseVariablesFromText.
  destruct (parse_loop_terminates text) as [out ->]. reflexivity.
Qed.

Lemma parseVariablesFromText_spec text :
  placeholders_from text 0 (parseVariablesFromText text).
Proof.
  pose proof (parseVariablesFromText_run_eq text) as H.
  apply parse_loop_sound in H. destruct H as (found & -> & H). exact H.
Qed.

(** The specification determines the list of placeholders. *)
Lemma placeholders_from_unique t : forall pos l1 l2,
  placeholders_from t pos l1 -> placeholders_from t pos l2 -> l1 = l2.
Proof.
  intros pos l1 l2 H1. revert l2.
  induction H1 as [pos Hnone | pos i n rest Hle Hat Hleast Hrest IH]; intros l2 H2.
  - inversion H2; subst; auto. exfalso. eapply Hnone; eauto.
  - inversion H2 as [pos' Hnone | pos' i' n' rest' Hle' Hat' Hleast' Hrest']; subst.
    + exfalso. eapply Hnone; eauto.
    + assert (i = i').
      { destruct (Nat.lt_trichotomy i i') as [Hlt | [Heq | Hgt]]; auto.
        - exfalso. apply (Hleast' i n); auto.
        - exfalso. apply (Hleast i' n'); auto. }
      subst i'. assert (n = n') by (eapply placeholder_at_unique; eauto). subst n'.
      f_equal. apply IH. exact Hrest'.
Qed.

Lemma placeholders_from_ok t : forall pos l,
  placeholders_from t pos l -> Forall (occurrence_ok t) l /\ in_sequence pos l.
Proof.
  intros pos l H.
  induction H as [pos Hnone | pos i n rest Hle Hat Hleast Hrest [IHok IHseq]].
  - split; [constructor | exact I].
  - split.
    + constructor; auto. unfold occurrence_ok; simpl.
      pose proof (placeholder_at_bound _ _ _ Hat) as Hb.
      destruct Hat as (r & Hs & Hne & Hfree).
      repeat split; auto. unfold slice. rewrite Hs.
      replace (i + length n + 2 - i) with (S (length n + 1)) by lia.
      simpl. f_equal. rewrite firstn_app.
      replace (length n + 1 - length n) with 1 by lia. simpl.
      rewrite firstn_all2 by lia. reflexivity.
    + simpl. repeat split; auto; lia.
Qed.

Lemma in_sequence_starts l : forall lo,
  in_sequence lo l -> Forall (fun o => lo <= start o /\ start o < end_ o) l.
Proof.
  induction l as [|o l IH]; simpl; intros lo H; constructor.
  - intuition.
  - destruct H as (H1 & H2 & H3). apply IH in H3.
    eapply Forall_impl; [|exact H3]. simpl; intros; lia.
Qed.

Lemma in_sequence_sorted l : forall lo,
  in_sequence lo l -> StronglySorted lt (map start l).
Proof.
  induction l as [|o l IH]; simpl; intros lo H; constructor.
  - destruct H as (_ & _ & H). eauto.
  - destruct H as (_ & H2 & H3). apply in_sequence_starts in H3.
    rewrite Forall_map. eapply Forall_impl; [|exact H3]. simpl; intros; lia.
Qed.

Lemma in_sequence_disjoint l : forall lo,
  in_sequence lo l -> ForallOrdPairs disjoint l.
Proof.
  induction l as [|o l IH]; simpl; intros lo H; constructor.
  - destruct H as (_ & _ & H3). apply in_sequence_starts in H3.
    eapply Forall_impl; [|exact H3]. unfold disjoint; simpl; intros; lia.
  - destruct H as (_ & _ & H3). eauto.
Qed.

(** ** Slices *)

Lemma firstn_skipn_firstn {A} (u : list A) : forall n m,
  firstn n u ++ firstn m (skipn n u) = firstn (n + m) u.
Proof.
  induction u as [|x u IH]; intros n m.
  - now rewrite skipn_nil, !firstn_nil.
  - destruct n as [|n]; simpl; [reflexivity|]. now rewrite IH.
Qed.

Lemma slice_app t a b c :
  a <= b <= c -> slice t a b ++ slice t b c = slice t a c.
Proof.
  intros H. unfold slice.
  replace (skipn b t) with (skipn (b - a) (skipn a t))
    by (rewrite skipn_skipn; f_equal; lia).
  rewrite firstn_skipn_firstn. f_equal; lia.
Qed.

Lemma slice_empty t a : slice t a a = [].
Proof. unfold slice. now rewrite Nat.sub_diag. Qed.

Lemma substring_slice t a b : a <= b -> substring t a b = slice t a b.
Proof.
  intros H. unfold substring, slice.
  now rewrite Nat.max_r, Nat.min_l by lia.
Qed.

Lemma slice_to_end t a : slice t 0 a ++ slice_from t a = t.
Proof.
  unfold slice, slice_from. rewrite Nat.sub_0_r. simpl.
  apply firstn_skipn.
Qed.

(** ** [InteractiveText] shows the text it was given *)

Lemma textContent_app a b : textContent (a ++ b) = textContent a ++ textContent b.
Proof. apply flat_map_app. Qed.

Lemma forEach_text t : forall variables elements lastIndex,
  Forall (occurrence_ok t) variables ->
  in_sequence lastIndex variables ->
  lastIndex <= length t ->
  textContent (fst (fold_left (forEach_body t) variables (elements, lastIndex)))
    = textContent elements
      ++ slice t lastIndex (snd (fold_left (forEach_body t) variables (elements, lastIndex)))
  /\ lastIndex <= snd (fold_left (forEach_body t) variables (elements, lastIndex)) <= length t.
Proof.
  induction variables as [|o variables IH]; intros elements lastIndex Hok Hseq Hlen; simpl.
  - rewrite slice_empty, app_nil_r. split; [reflexivity | lia].
  - inversion Hok as [|? ? Ho Hok']; subst.
    destruct Hseq as (Hlo & Hlt & Hseq').
    destruct Ho as (Hend & Hslice & _ & _ & Hbound).
    match goal with |- context [fold_left _ _ (?els, _)] => set (els1 := els) end.
    destruct (IH els1 (end_ o) Hok' Hseq' Hbound) as [IHtext IHle].
    split; [|lia]. rewrite IHtext. subst els1.
    rewrite textContent_app. simpl. rewrite app_nil_r, <- Hslice.
    assert (Hpre : textContent
              (if lastIndex <? start o
               then elements ++ [TextSpan (substring t lastIndex (start o))]
               else elements) = textContent elements ++ slice t lastIndex (start o)).
    { destruct (Nat.ltb_spec lastIndex (start o)).
      - rewrite textContent_app. simpl. rewrite app_nil_r.
        now rewrite substring_slice by lia.
      - replace (start o) with lastIndex by lia.
        now rewrite slice_empty, app_nil_r. }
    rewrite Hpre, <- !app_assoc. f_equal.
    rewrite app_assoc, slice_app by lia. apply slice_app. lia.
Qed.

Lemma InteractiveText_text t : textContent (InteractiveText t) = t.
Proof.
  unfold InteractiveText.
  destruct (Nat.eqb_spec (length (parseVariablesFromText t)) 0) as [_|_].
  - simpl. apply app_nil_r.
  - destruct (placeholders_from_ok _ _ _ (parseVariablesFromText_spec t)) as [Hok Hseq].
    destruct (forEach_text t _ [] 0 Hok Hseq (Nat.le_0_l _)) as [Htext Hle].
    destruct (fold_left (forEach_body t) (parseVariablesFromText t) ([], 0))
      as [elements lastIndex]. simpl in *.
    destruct (Nat.ltb_spec lastIndex (length t)).
    + rewrite textContent_app, Htext. simpl. rewrite app_nil_r.
      apply slice_to_end.
    + rewrite Htext. unfold slice. rewrite Nat.sub_0_r. simpl.
      apply firstn_all2. lia.
Qed.

(** ** The variable store *)

Import Storage Derived Examples.

Lemma jsstring_eqb_eq a b : jsstring_eqb a b = true <-> a = b.
Proof. unfold jsstring_eqb. destruct (list_eq_dec ascii_dec a b); split; congruence. Qed.

Lemma jsstring_eqb_neq a b : jsstring_eqb a b = false <-> a <> b.
Proof. unfold jsstring_eqb. destruct (list_eq_dec ascii_dec a b); split; congruence. Qed.

Lemma jsstring_eqb_refl a : jsstring_eqb a a = true.
Proof. now apply jsstring_eqb_eq. Qed.

Lemma getUserVariables_eq b : getUserVariables b = (Ok (visible b), b).
Proof.
  unfold getUserVariables, try_catch, bind, safe_get, try_catch, browser_get_user_variables,
    visible, persisted, ret.
  destruct (storage_local_present b); simpl; [|reflexivity].
  destruct (get_rejects b); reflexivity.
Qed.

Lemma safe_set_user_variables_eq l b :
  safe_set (browser_set_user_variables l) b =
  if storage_local_present b then
    match set_rejects b with
    | Some e => (Throw e, b)
    | None => (Ok tt, written b l)
    end
  else (Ok tt, b).
Proof.
  unfold safe_set, try_catch, browser_set_user_variables, written, throw.
  destruct (storage_local_present b); simpl; [|reflexivity].
  destruct (set_rejects b); reflexivity.
Qed.

Lemma visible_healthy b : healthy b -> visible b = persisted b.
Proof. intros (Hp & Hg & _). unfold visible. now rewrite Hp, Hg. Qed.

Lemma written_healthy b l : healthy b -> healthy (written b l).
Proof. intros H; exact H. Qed.

Lemma persisted_written b l : persisted (written b l) = l.
Proof. reflexivity. Qed.

(** *** [findIndex] and assignment at the index found *)

Section FindIndex.

Context {A : Type} (f : A -> bool).

Lemma findIndex_miss l :
  forallb (fun x => negb (f x)) l = true -> findIndex f l = (-1)%Z.
Proof.
  induction l as [|x l IH]; simpl; intros H; [reflexivity|].
  apply andb_prop in H. destruct H as [Hx Hl].
  destruct (f x); [discriminate|]. rewrite (IH Hl). reflexivity.
Qed.

Lemma findIndex_hit pre x post :
  forallb (fun y => negb (f y)) pre = true -> f x = true ->
  findIndex f (pre ++ x :: post) = Z.of_nat (length pre).
Proof.
  induction pre as [|y pre IH]; simpl; intros Hpre Hx.
  - now rewrite Hx.
  - apply andb_prop in Hpre. destruct Hpre as [Hy Hpre].
    destruct (f y); [discriminate|]. rewrite (IH Hpre Hx).
    destruct (Z.ltb_spec (Z.of_nat (length pre)) 0); lia.
Qed.

(** Either nothing satisfies [f], or the list splits at the first element
    that does. *)
Lemma findIndex_cases l :
  (forallb (fun x => negb (f x)) l = true /\ findIndex f l = (-1)%Z) \/
  (exists pre x post, l = pre ++ x :: post /\
     forallb (fun y => negb (f y)) pre = true /\ f x = true /\
     findIndex f l = Z.of_nat (length pre)).
Proof.
  induction l as [|x l IH]; simpl.
  - left; auto.
  - destruct (f x) eqn:Hx.
    + right. exists [], x, l. simpl. auto.
    + destruct IH as [[Hall Hm] | (pre & y & post & -> & Hpre & Hy & Hi)].
      * left. rewrite Hall, Hm. auto.
      * right. exists (x :: pre), y, post. simpl. rewrite Hx, Hpre, Hi. simpl.
        repeat split; auto.
        destruct (Z.ltb_spec (Z.of_nat (length pre)) 0); lia.
Qed.

Lemma array_set_middle (pre : list A) x post y :
  array_set (pre ++ x :: post) (length pre) y = pre ++ y :: post.
Proof. induction pre as [|z pre IH]; simpl; [reflexivity | now rewrite IH]. Qed.

End FindIndex.

(** *** The three operations, unfolded *)

Lemma addUserVariable_eq uuid now variable b :
  addUserVariable uuid now variable b =
  let variables := visible b in
  let existingIndex := findIndex (named (in_name variable)) variables in
  let variables' :=
    if (0 <=? existingIndex)%Z
    then array_set variables (Z.to_nat existingIndex) (newVariable uuid now variable)
    else push variables (newVariable uuid now variable) in
  if storage_local_present b then
    match set_rejects b with
    | Some e => (Throw e, b)
    | None => (Ok (newVariable uuid now variable), written b variables')
    end
  else (Ok (newVariable uuid now variable), b).
Proof.
  unfold addUserVariable, bind. rewrite getUserVariables_eq.
  rewrite safe_set_user_variables_eq. cbv zeta.
  destruct (storage_local_present b); [|reflexivity].
  destruct (set_rejects b); reflexivity.
Qed.

Lemma updateUserVariable_eq now variable b :
  updateUserVariable now variable b =
  let variables := visible b in
  let index := findIndex (has_id (id variable)) variables in
  if (0 <=? index)%Z then
    if storage_local_present b then
      match set_rejects b with
      | Some e => (Throw e, b)
      | None => (Ok (updatedVariable now variable),
                 written b (array_set variables (Z.to_nat index) (updatedVariable now variable)))
      end
    else (Ok (updatedVariable now variable), b)
  else (Ok variable, b).
Proof.
  unfold updateUserVariable, bind. rewrite getUserVariables_eq. cbv zeta.
  fold (has_id (id variable)).
  destruct (0 <=? findIndex (has_id (id variable)) (visible b))%Z; [|reflexivity].
  rewrite safe_set_user_variables_eq.
  destruct (storage_local_present b); [|reflexivity].
  destruct (set_rejects b); reflexivity.
Qed.

Lemma removeUserVariable_eq id0 b :
  removeUserVariable id0 b =
  let filtered := filter (fun v => negb (has_id id0 v)) (visible b) in
  if storage_local_present b then
    match set_rejects b with
    | Some e => (Throw e, b)
    | None => (Ok tt, written b filtered)
    end
  else (Ok tt, b).
Proof.
  unfold removeUserVariable, bind. rewrite getUserVariables_eq.
  now rewrite safe_set_user_variables_eq.
Qed.

(** *** Upsert by name *)


Lemma forallb_not_In {A} (f : A -> bool) l :
  forallb (fun x => negb (f x)) l = true <-> (forall x, In x l -> f x = false).
Proof.
  rewrite forallb_forall. split; intros H x Hx; specialize (H x Hx).
  - now apply negb_true_iff.
  - now apply negb_true_iff.
Qed.

(** The written collection has the new record at the place of the first
    variable with its name, or at the end when there is none. *)
Lemma upsert_shape nv l :
  exists pre post,
    upsert nv l = pre ++ nv :: post /\
    forallb (fun v => negb (named (name nv) v)) pre = true /\
    ((l = pre /\ post = []) \/
     (exists x, l = pre ++ x :: post /\ named (name nv) x = true)).
Proof.
  unfold upsert.
  destruct (findIndex_cases (named (name nv)) l)
    as [[Hall Hm] | (pre & x & post & -> & Hpre & Hx & Hi)].
  - rewrite Hm. simpl. exists l, []. unfold push. auto.
  - rewrite Hi. destruct (Z.leb_spec 0 (Z.of_nat (length pre))); [|lia].
    rewrite Nat2Z.id, array_set_middle. exists pre, post. eauto 6.
Qed.






Lemma addUserVariable_healthy uuid now variable b :
  healthy b ->
  addUserVariable uuid now variable b =
    (Ok (newVariable uuid now variable),
     written b (upsert (newVariable uuid now variable) (persisted b))).
Proof.
  intros H. rewrite addUserVariable_eq, (visible_healthy b H).
  destruct H as (-> & _ & ->). reflexivity.
Qed.

(** *** Unique names *)

Lemma names_app l1 l2 : names (l1 ++ l2) = names l1 ++ names l2.
Proof. apply map_app. Qed.

Lemma upsert_unique_names nv l :
  NoDup (names l) -> NoDup (names (upsert nv l)).
Proof.
  intros H. destruct (upsert_shape nv l) as (pre & post & -> & Hpre & [[-> ->] | (x & -> & Hx)]).
  - rewrite names_app. simpl.
    apply NoDup_app; auto.
    + constructor; [intros [] | constructor].
    + intros n Hin [<- | []]. unfold names in Hin. apply in_map_iff in Hin.
      destruct Hin as (v & Hv & Hin).
      apply (proj1 (forallb_not_In _ _) Hpre) in Hin.
      apply jsstring_eqb_neq in Hin. congruence.
  - apply jsstring_eqb_eq in Hx. rewrite names_app in *. simpl in *.
    now rewrite <- Hx.
Qed.

Lemma filter_unique_names (f : UserVariable -> bool) l :
  NoDup (names l) -> NoDup (names (filter f l)).
Proof.
  induction l as [|v l IH]; simpl; intros H; [constructor|].
  inversion H as [|? ? Hnot Hrest]; subst.
  destruct (f v); simpl; auto. constructor; auto.
  intros Hin. apply Hnot. unfold names in *. apply in_map_iff in Hin.
  destruct Hin as (w & Hw & Hin). apply filter_In in Hin.
  apply in_map_iff. exists w. tauto.
Qed.

(** [addUserVariable] and [removeUserVariable] keep names unique, in every
    environment: what they write is an upsert or a filter of what they read,
    and a failed write leaves the collection as it was. *)
Lemma add_remove_keep_names_unique op b :
  (forall now variable, op <> UpdateUserVariable now variable) ->
  NoDup (names (persisted b)) -> NoDup (names (persisted (run_op op b))).
Proof.
  intros Hop H.
  assert (Hvis : NoDup (names (visible b))).
  { unfold visible. destruct (storage_local_present b); [|constructor].
    destruct (get_rejects b); [constructor | exact H]. }
  destruct op as [uuid now variable | now variable | id0]; simpl.
  - rewrite addUserVariable_eq. cbv zeta.
    destruct (storage_local_present b); [|exact H].
    destruct (set_rejects b); [exact H|]. simpl.
    apply (upsert_unique_names (newVariable uuid now variable)), Hvis.
  - exfalso. eapply Hop; reflexivity.
  - rewrite removeUserVariable_eq. cbv zeta.
    destruct (storage_local_present b); [|exact H].
    destruct (set_rejects b); [exact H|]. simpl.
    apply filter_unique_names, Hvis.
Qed.

(** *** Looking a variable up by id *)

Lemma findIndex_absent (i : jsstring) l :
  ~ In i (map id l) -> findIndex (has_id i) l = (-1)%Z.
Proof.
  intros H. apply findIndex_miss. apply forallb_not_In. intros v Hv.
  apply jsstring_eqb_neq. intros E. apply H. apply in_map_iff. eauto.
Qed.

Lemma findIndex_present (i : jsstring) l :
  In i (map id l) -> (0 <= findIndex (has_id i) l)%Z.
Proof.
  intros H. destruct (findIndex_cases (has_id i) l) as [[Hall _] | (pre & x & post & _ & _ & _ & ->)].
  - apply in_map_iff in H. destruct H as (v & Hv & Hin).
    apply (proj1 (forallb_not_In _ _) Hall) in Hin.
    apply jsstring_eqb_neq in Hin. congruence.
  - lia.
Qed.

Lemma visible_incl b v : In v (visible b) -> In v (persisted b).
Proof.
  unfold visible. destruct (storage_local_present b); [|intros []].
  destruct (get_rejects b); [intros [] | auto].
Qed.

(** ** The recent-prompt buffer *)

Lemma addRecentPrompt_healthy uuid now prompt b :
  healthy b ->
  addRecentPrompt uuid now prompt b =
    (Ok tt, with_local b (mkLocalStorage (user_variables (local b))
                            (Some (firstn 20 (entry (uuid, now, prompt) :: buffer b))))).
Proof.
  intros (Hp & Hg & Hs).
  unfold addRecentPrompt, getRecentPrompts, bind, safe_get, safe_set, try_catch,
    browser_get_recent_prompts, browser_set_recent_prompts, ret.
  rewrite Hp, Hg. simpl. rewrite Hp, Hs. reflexivity.
Qed.

Lemma firstn_app_firstn {A} (xs ys : list A) : forall m n,
  m <= n -> firstn m (xs ++ firstn n ys) = firstn m (xs ++ ys).
Proof.
  induction xs as [|x xs IH]; intros m n Hmn; simpl.
  - rewrite firstn_firstn. f_equal. lia.
  - destruct m as [|m]; simpl; [reflexivity|]. f_equal. apply IH. lia.
Qed.

(** After any additions the buffer holds the newest entries first, cut at
    twenty. *)
Lemma add_all_buffer adds : forall b,
  healthy b -> length (buffer b) <= 20 ->
  buffer (add_all adds b) = firstn 20 (rev (map entry adds) ++ buffer b).
Proof.
  induction adds as [|[[uuid now] prompt] adds IH]; intros b Hb Hlen.
  - unfold add_all. cbn [fold_left map rev app]. now rewrite firstn_all2.
  - unfold add_all. cbn [fold_left map rev]. fold (add_all adds).
    rewrite (addRecentPrompt_healthy uuid now prompt b Hb). cbn [snd].
    rewrite IH.
    + unfold buffer at 1. cbn [local with_local recent_prompts or_empty].
      rewrite firstn_app_firstn by lia. now rewrite <- app_assoc.
    + exact Hb.
    + unfold buffer. cbn [local with_local recent_prompts or_empty].
      rewrite length_firstn. lia.
Qed.

(** ** Slices of a text after a replacement *)

Lemma slice_app_l (xs ys : jsstring) a b :
  b <= length xs -> slice (xs ++ ys) a b = slice xs a b.
Proof.
  intros H. unfold slice. rewrite skipn_app, firstn_app, length_skipn.
  replace (b - a - (length xs - a)) with 0 by lia.
  now rewrite firstn_O, app_nil_r.
Qed.

Lemma slice_firstn (t : jsstring) s a b :
  b <= s -> slice (firstn s t) a b = slice t a b.
Proof.
  intros H. unfold slice. rewrite skipn_firstn_comm, firstn_firstn.
  f_equal. lia.
Qed.

Lemma slice_app_r (xs ys : jsstring) a b :
  slice (xs ++ ys) (length xs + a) (length xs + b) = slice ys a b.
Proof.
  unfold slice. rewrite skipn_app.
  rewrite (skipn_all2 xs) by lia. simpl.
  f_equal; [lia | f_equal; lia].
Qed.

Lemma slice_skipn (t : jsstring) e a b :
  slice (skipn e t) a b = slice t (e + a) (e + b).
Proof.
  unfold slice. rewrite skipn_skipn. f_equal; [lia | f_equal; lia].
Qed.

Lemma replaceAt_slice t pos v :
  Popup.replaceAt t pos v
  = slice t 0 (Popup.start pos) ++ v ++ slice_from t (Popup.end_ pos).
Proof. unfold Popup.replaceAt. now rewrite substring_slice by lia. Qed.

(** An occurrence that ends before the replaced span keeps its offsets. *)
Lemma slice_before_replacement t s e v a b :
  s <= length t -> b <= s ->
  slice (slice t 0 s ++ v ++ slice_from t e) a b = slice t a b.
Proof.
  intros Hs Hb. unfold slice at 2. rewrite Nat.sub_0_r. simpl.
  rewrite slice_app_l by (rewrite length_firstn; lia).
  now apply slice_firstn.
Qed.

(** An occurrence that starts after the replaced span moves by the
    difference of the lengths. *)
Lemma slice_after_replacement t s e v a b :
  s <= length t -> e <= a ->
  slice (slice t 0 s ++ v ++ slice_from t e)
        (a - e + s + length v) (b - e + s + length v)
  = slice t a b.
Proof.
  intros Hs Ha. unfold slice at 2. rewrite Nat.sub_0_r. simpl.
  rewrite app_assoc. unfold slice_from.
  replace (a - e + s + length v) with (length (firstn s t ++ v) + (a - e))
    by (rewrite length_app, length_firstn; lia).
  replace (b - e + s + length v) with (length (firstn s t ++ v) + (b - e))
    by (rewrite length_app, length_firstn; lia).
  rewrite slice_app_r, slice_skipn.
  replace (e + (a - e)) with a by lia.
  destruct (Nat.le_gt_cases e b).
  - now replace (e + (b - e)) with b by lia.
  - unfold slice. replace (e + (b - e) - a) with 0 by lia.
    now replace (b - a) with 0 by lia.
Qed.

(** ** The preview loop ends *)

Lemma variable_pattern_some s m0 m1 :
  Preview.variable_pattern s = Some (m0, m1) ->
  length m1 + 4 = length m0 /\ length m0 <= length s.
Proof.
  unfold Preview.variable_pattern.
  destruct s as [|c1 [|c2 s']]; try discriminate.
  destruct (Ascii.eqb c1 Preview.LBRACE && Ascii.eqb c2 Preview.LBRACE); [|discriminate].
  cbv zeta.
  pose proof (run_except_split Preview.RBRACE s') as Hs.
  destruct (truthy (run_except Preview.RBRACE s')); [|discriminate].
  destruct (skipn (length (run_except Preview.RBRACE s')) s') as [|d1 [|d2 rest]];
    try discriminate.
  destruct (Ascii.eqb d1 Preview.RBRACE && Ascii.eqb d2 Preview.RBRACE); [|discriminate].
  intros H; inversion H; subst; clear H.
  apply (f_equal (@length ascii)) in Hs. rewrite length_app in Hs.
  simpl in *. rewrite !length_app. simpl. lia.
Qed.

Lemma preview_loop_fuel variables fuel : forall value lastIndex preview,
  0 < fuel -> length value < lastIndex + fuel ->
  exists out, Preview.preview_loop fuel value variables lastIndex preview = Some out.
Proof.
  induction fuel as [|fuel IH]; intros value lastIndex preview Hpos Hfuel; [lia|].
  simpl. destruct (exec Preview.variable_pattern value lastIndex) as [m|] eqn:E; [|eauto].
  apply exec_some in E. destruct E as (Hi & Hp & _).
  apply variable_pattern_some in Hp. rewrite length_skipn in Hp.
  unfold lastIndex_after. apply IH; lia.
Qed.

Lemma generatePreview_run_eq value variables :
  Preview.generatePreview_run value variables = Some (Preview.generatePreview value variables).
Proof.
  unfold Preview.generatePreview.
  destruct (preview_loop_fuel variables (S (length value)) value 0 value) as [out Hout];
    try lia.
  unfold Preview.generatePreview_run. now rewrite Hout.
Qed.

(** ** Upsert by name: [addUserVariable] *)


(** A collection that already holds two variables with the name keeps both:
    only the first is overwritten. *)
Lemma upsert_keeps_duplicates :
  let twice := [mkUserVariable (str "a") (str "X") (str "old") None None 0;
                mkUserVariable (str "b") (str "X") (str "old") None None 0] in
  let b := mkBrowser true None None (mkLocalStorage (Some twice) None) in
  let b1 := snd (addUserVariable (str "id-1") 1 (varX "v1") b) in
  names (persisted (snd (addUserVariable (str "id-2") 2 (varX "v2") b1)))
    = [str "X"; str "X"].
Proof. reflexivity. Qed.




(** ** Names under [updateUserVariable] *)

(** C2: starting from the empty store, adding ["A"], adding ["B"] and
    updating ["B"] by id with the name ["A"] leaves two variables named
    ["A"]: [updateUserVariable] writes the given name without looking for
    another variable that holds it, where [addUserVariable] does look. *)
Theorem update_duplicates_name :
  names (persisted (run_ops (firstn 2 rename_B_to_A) fresh_browser)) = [str "A"; str "B"] /\
  names (persisted (run_ops rename_B_to_A fresh_browser)) = [str "A"; str "A"] /\
  ~ NoDup (names (persisted (run_ops rename_B_to_A fresh_browser))).
Proof.
  split; [reflexivity|]. split; [reflexivity|].
  intros H. change (NoDup [str "A"; str "A"]) in H.
  inversion H as [|? ? Hnot _]. apply Hnot. left; reflexivity.
Qed.

(** ** Persistence failures *)

(** C6, as stated, fails for reads: when the underlying [get] rejects,
    [getUserVariables] returns the empty list and throws nothing, and
    [addUserVariable] then reports success after writing a collection that
    holds the new variable alone. *)
Lemma read_failure_is_swallowed :
  getUserVariables get_fails = (Ok [], get_fails) /\
  (forall e, fst (getUserVariables get_fails) <> Throw e) /\
  fst (addUserVariable (str "id-2") 2 varB get_fails) = Ok (newVariable (str "id-2") 2 varB) /\
  persisted (snd (addUserVariable (str "id-2") 2 varB get_fails))
    = [newVariable (str "id-2") 2 varB].
Proof. repeat split. intros e H. discriminate H. Qed.

(** C6 (amended): write failures propagate.  When the underlying [set]
    rejects with [e], [addUserVariable], [removeUserVariable] and
    [updateUserVariable] on an id it finds throw [e] and leave the
    environment, hence the persisted collection, as it was (an update on an
    id it does not find writes nothing and returns its input).  Read
    failures do not propagate: when the underlying [get] rejects,
    [getUserVariables] returns the empty list, by the two [catch] clauses
    on its path. *)
Theorem write_failures_propagate_reads_fall_back :
  (forall b e,
      storage_local_present b = true -> set_rejects b = Some e ->
      (forall uuid now variable, addUserVariable uuid now variable b = (Throw e, b)) /\
      (forall id0, removeUserVariable id0 b = (Throw e, b)) /\
      (forall now variable,
          In (id variable) (map id (visible b)) ->
          updateUserVariable now variable b = (Throw e, b)) /\
      (forall now variable,
          ~ In (id variable) (map id (visible b)) ->
          updateUserVariable now variable b = (Ok variable, b))) /\
  (forall b e, get_rejects b = Some e -> getUserVariables b = (Ok [], b)).
Proof.
  split.
  - intros b e Hp Hs. repeat split.
    + intros. rewrite addUserVariable_eq. cbv zeta. now rewrite Hp, Hs.
    + intros. rewrite removeUserVariable_eq. cbv zeta. now rewrite Hp, Hs.
    + intros now variable Hin. rewrite updateUserVariable_eq. cbv zeta.
      apply findIndex_present in Hin.
      destruct (Z.leb_spec 0 (findIndex (has_id (id variable)) (visible b))); [|lia].
      now rewrite Hp, Hs.
    + intros now variable Hin. rewrite updateUserVariable_eq. cbv zeta.
      now rewrite (findIndex_absent _ _ Hin).
  - intros b e Hg. rewrite getUserVariables_eq. unfold visible. rewrite Hg.
    now destruct (storage_local_present b).
Qed.

Lemma write_failures_propagate_reads_fall_back_witness :
  addUserVariable (str "id-2") 2 varB set_fails = (Throw (str "write error"), set_fails) /\
  getUserVariables get_fails = (Ok [], get_fails).
Proof.
  split.
  - apply (proj1 write_failures_propagate_reads_fall_back set_fails (str "write error"));
      reflexivity.
  - apply (proj2 write_failures_propagate_reads_fall_back get_fails (str "read error"));
      reflexivity.
Defined.

(** ** Update by id *)

(** C7: [updateUserVariable] on an id that no persisted variable has
    returns its input and leaves the environment, hence the persisted
    collection, untouched, in every environment; on a working store, when
    the id is present, the first variable with that id, and only it, is
    replaced by the given fields with the timestamp of the call. *)
Theorem updateUserVariable_by_id :
  forall b now variable,
    (~ In (id variable) (map id (persisted b)) ->
     updateUserVariable now variable b = (Ok variable, b)) /\
    (forall pre x post,
        healthy b ->
        persisted b = pre ++ x :: post ->
        id x = id variable ->
        ~ In (id variable) (map id pre) ->
        updateUserVariable now variable b =
          (Ok (updatedVariable now variable),
           written b (pre ++ updatedVariable now variable :: post))).
Proof.
  intros b now variable. split.
  - intros Hin. rewrite updateUserVariable_eq. cbv zeta.
    rewrite findIndex_absent; [reflexivity|].
    intros H. apply Hin. apply in_map_iff in H. destruct H as (v & Hv & H).
    apply in_map_iff. exists v. split; [exact Hv | now apply visible_incl].
  - intros pre x post Hb Hl Hx Hpre.
    rewrite updateUserVariable_eq, (visible_healthy b Hb), Hl. cbv zeta.
    assert (Hi : findIndex (has_id (id variable)) (pre ++ x :: post) = Z.of_nat (length pre)).
    { apply findIndex_hit.
      - apply forallb_not_In. intros v Hv. apply jsstring_eqb_neq.
        intros E. apply Hpre. apply in_map_iff. eauto.
      - now apply jsstring_eqb_eq. }
    rewrite Hi. destruct (Z.leb_spec 0 (Z.of_nat (length pre))); [|lia].
    destruct Hb as (-> & _ & ->). now rewrite Nat2Z.id, array_set_middle.
Qed.

Lemma updateUserVariable_by_id_witness :
  updateUserVariable 5 (mkUserVariable (str "nowhere") (str "A") (str "9") None None 0) healthy_A
    = (Ok (mkUserVariable (str "nowhere") (str "A") (str "9") None None 0), healthy_A) /\
  updateUserVariable 5 (mkUserVariable (str "id-1") (str "A") (str "9") None None 0) healthy_A
    = (Ok (mkUserVariable (str "id-1") (str "A") (str "9") None None 5),
       written healthy_A [mkUserVariable (str "id-1") (str "A") (str "9") None None 5]).
Proof.
  split.
  - apply (proj1 (updateUserVariable_by_id healthy_A 5 _)).
    simpl. intros [H | []]. discriminate H.
  - apply (proj2 (updateUserVariable_by_id healthy_A 5
                    (mkUserVariable (str "id-1") (str "A") (str "9") None None 0))
             [] (mkUserVariable (str "id-1") (str "A") (str "1") None None 1) []).
    + repeat split.
    + reflexivity.
    + reflexivity.
    + simpl. tauto.
Defined.

(** ** The recent-prompt buffer *)

(** C4: on a working store, [addRecentPrompt] builds an entry with the id
    and the time it obtained, puts it in front of the stored list and keeps
    the first twenty entries; after twenty-one additions to an empty buffer
    the buffer has twenty entries, the last twenty additions with the most
    recent first, and, the ids being distinct, the first addition is not
    among them. *)
Theorem addRecentPrompt_ring_buffer :
  forall b,
    healthy b ->
    (forall uuid now prompt,
        fst (addRecentPrompt uuid now prompt b) = Ok tt /\
        buffer (snd (addRecentPrompt uuid now prompt b))
          = firstn 20 (mkRecentPrompt uuid (in_original prompt) (in_optimized prompt) now
                         :: buffer b)) /\
    (forall adds,
        buffer b = [] ->
        length adds = 21 ->
        length (buffer (add_all adds b)) = 20 /\
        buffer (add_all adds b) = rev (map entry (tl adds)) /\
        (NoDup (map rp_id (map entry adds)) ->
         forall first, hd_error adds = Some first ->
                       ~ In (entry first) (buffer (add_all adds b)))).
Proof.
  intros b Hb. split.
  - intros uuid now prompt. rewrite (addRecentPrompt_healthy uuid now prompt b Hb).
    split; reflexivity.
  - intros adds Hempty Hlen.
    assert (Hbuf : buffer (add_all adds b) = rev (map entry (tl adds))).
    { rewrite add_all_buffer by (auto; rewrite Hempty; simpl; lia).
      rewrite Hempty, app_nil_r.
      destruct adds as [|a adds]; [discriminate|].
      cbn [map rev tl]. cbn [length] in Hlen.
      rewrite firstn_app.
      replace (20 - length (rev (map entry adds))) with 0
        by (rewrite length_rev, length_map; lia).
      rewrite firstn_O, app_nil_r. apply firstn_all2.
      rewrite length_rev, length_map. lia. }
    rewrite Hbuf. repeat split.
    + rewrite length_rev, length_map. destruct adds; simpl in *; lia.
    + intros Hnodup first Hfirst Hin.
      destruct adds as [|a adds]; [discriminate|]. simpl in *.
      inversion Hfirst; subst a. inversion Hnodup as [|? ? Hnot _]; subst.
      apply Hnot. apply in_map. now apply in_rev.
Qed.

Lemma addRecentPrompt_ring_buffer_witness :
  length (buffer (add_all twenty_one fresh_browser)) = 20 /\
  buffer (add_all twenty_one fresh_browser) = rev (map entry (tl twenty_one)).
Proof.
  assert (H : healthy fresh_browser) by (repeat split).
  destruct (proj2 (addRecentPrompt_ring_buffer fresh_browser H) twenty_one eq_refl eq_refl)
    as (Hlen & Hbuf & _).
  split; assumption.
Defined.

(** ** The bracket parser *)

(** C8: when [t] contains the well-formed bracket placeholders
    [occurrences], [n] of them, read left to right without overlap, the
    parsing loop ends with exactly these [n] occurrences, whatever bound of
    more than [length t] iterations it is given, and their start offsets
    increase strictly; ["[A][B]"] parses to the two occurrences [A] and
    [B]. *)
Theorem parseVariablesFromText_finds_placeholders :
  forall t occurrences n,
    placeholders_from t 0 occurrences ->
    length occurrences = n ->
    parseVariablesFromText_run t = Some occurrences /\
    (forall fuel, length t < fuel -> parse_loop fuel t 0 [] = Some occurrences) /\
    parseVariablesFromText t = occurrences /\
    length (parseVariablesFromText t) = n /\
    StronglySorted lt (map start (parseVariablesFromText t)) /\
    parseVariablesFromText (str "[A][B]")
      = [mkParsed (str "A") 0 3; mkParsed (str "B") 3 6].
Proof.
  intros t occurrences n Hspec Hn.
  assert (Hfuel : forall fuel, length t < fuel -> parse_loop fuel t 0 [] = Some occurrences).
  { intros fuel Hlt.
    destruct (parse_loop_fuel fuel t 0 []) as [out Hout]; try lia.
    rewrite Hout. f_equal.
    apply parse_loop_sound in Hout. destruct Hout as (found & -> & Hfound).
    simpl. eapply placeholders_from_unique; eauto. }
  assert (Hrun : parseVariablesFromText_run t = Some occurrences)
    by (apply Hfuel; lia).
  assert (Heq : parseVariablesFromText t = occurrences)
    by (unfold parseVariablesFromText; now rewrite Hrun).
  rewrite Heq. repeat split; auto.
  destruct (placeholders_from_ok _ _ _ Hspec) as [_ Hseq].
  eapply in_sequence_sorted; eauto.
Qed.

Lemma parseVariablesFromText_finds_placeholders_witness :
  parseVariablesFromText_run (str "[A][B]")
    = Some [mkParsed (str "A") 0 3; mkParsed (str "B") 3 6] /\
  length (parseVariablesFromText (str "[A][B]")) = 2.
Proof.
  destruct (parseVariablesFromText_finds_placeholders (str "[A][B]")
              [mkParsed (str "A") 0 3; mkParsed (str "B") 3 6] 2
              (parseVariablesFromText_spec (str "[A][B]")) eq_refl)
    as (Hrun & _ & _ & Hlen & _).
  split; assumption.
Defined.

(** C10: every occurrence the parser reports for [t] has
    [end = start + name.length + 2], covers exactly ["[" + name + "]"] in
    [t], and has a non-empty name without ["]"]; the occurrences are
    pairwise disjoint; and the children [InteractiveText] renders, the text
    between the occurrences and the rebuilt ["[" + name + "]"] boxes, spell
    [t]. *)
Theorem bracket_occurrences_round_trip :
  forall t,
    Forall (fun o =>
              end_ o = start o + length (Parser.name o) + 2 /\
              slice t (start o) (end_ o) = LBRACKET :: Parser.name o ++ [RBRACKET] /\
              Parser.name o <> [] /\
              ~ In RBRACKET (Parser.name o))
           (parseVariablesFromText t) /\
    ForallOrdPairs disjoint (parseVariablesFromText t) /\
    textContent (InteractiveText t) = t.
Proof.
  intros t.
  destruct (placeholders_from_ok _ _ _ (parseVariablesFromText_spec t)) as [Hok Hseq].
  repeat split.
  - eapply Forall_impl; [|exact Hok]. unfold occurrence_ok. intros o H. tauto.
  - eapply in_sequence_disjoint; eauto.
  - apply InteractiveText_text.
Qed.

(** ** Replacing the selected occurrence *)

(** C3: with a result on display, confirming the dialog (with a selected
    existing variable, or when the store write does not fail) leaves a
    result on display whose text [optimized] is
    [t.slice(0, start) + v + t.slice(end)], where [t] was the text,
    [start, end) is the dialog's position and [v] the replacement value;
    the other fields of the result are kept.  When that position is
    the one of an occurrence of [t], every other occurrence keeps its text
    ["[" + name + "]"]: at the same offsets if it lies before the replaced
    span, at offsets moved by [v.length - (end - start)] if it lies
    after. *)
Theorem handleReplaceVariable_replaces_selected_span :
  forall uuid now useExisting0 selected st b r,
    Popup.optimizationResult st = Some r ->
    (useExisting0 = true /\ selected <> None) \/
      storage_local_present b = false \/ set_rejects b = None ->
    let t := Popup.optimized r in
    let s := Popup.start (Popup.position (Popup.variableReplaceDialog st)) in
    let e := Popup.end_ (Popup.position (Popup.variableReplaceDialog st)) in
    let v := replacementValue useExisting0 selected st in
    let t' := slice t 0 s ++ v ++ slice_from t e in
    (exists st' b' r',
        Popup.handleReplaceVariable uuid now useExisting0 selected st b = (Ok st', b') /\
        Popup.optimizationResult st' = Some r' /\
        Popup.optimized r' = t' /\
        Popup.original r' = Popup.original r /\
        Popup.techniques_used r' = Popup.techniques_used r) /\
    (forall sel o,
        In sel (parseVariablesFromText t) -> start sel = s -> end_ sel = e ->
        In o (parseVariablesFromText t) -> o <> sel ->
        (end_ o <= s /\
         slice t' (start o) (end_ o) = LBRACKET :: Parser.name o ++ [RBRACKET]) \/
        (e <= start o /\
         slice t' (start o - e + s + length v) (end_ o - e + s + length v)
           = LBRACKET :: Parser.name o ++ [RBRACKET])).
Proof.
  intros uuid now useExisting0 selected st b r Hr Hwrite t s e v t'. split.
  - unfold Popup.handleReplaceVariable. rewrite Hr.
    assert (Hcreate :
      exists b',
        (newVariable0 <-
           addUserVariable uuid now
             (mkUserVariableInput (Popup.variableName (Popup.variableReplaceDialog st))
                (Popup.currentValue (Popup.variableReplaceDialog st))
                (Some (str "Variable for " ++ Popup.variableName (Popup.variableReplaceDialog st)))
                (Some (str "general"))) ;;
         variables <- getUserVariables ;;
         ret (value newVariable0, variables)) b
        = (Ok (Popup.currentValue (Popup.variableReplaceDialog st), visible b'), b')
      \/ (useExisting0 = true /\ selected <> None)).
    { destruct Hwrite as [Hex | Hok]; [exists b; right; exact Hex|].
      unfold bind at 1. rewrite addUserVariable_eq. cbv zeta.
      destruct (storage_local_present b) eqn:Hp.
      - destruct Hok as [Hf | Hs]; [discriminate|]. rewrite Hs.
        unfold bind. rewrite getUserVariables_eq. eexists. left. reflexivity.
      - unfold bind. rewrite getUserVariables_eq. eexists. left. reflexivity. }
    unfold bind at 1.
    destruct useExisting0, selected as [sv|];
      try (destruct Hcreate as [b' [Hc | [Hu Hs]]]; [|congruence];
           rewrite Hc; unfold ret; do 3 eexists; split; [reflexivity|];
           cbn [Popup.optimizationResult fst]; split; [reflexivity|];
           cbn [Popup.with_optimized Popup.optimized Popup.original Popup.techniques_used];
           now rewrite replaceAt_slice).
    unfold ret. do 3 eexists. split; [reflexivity|].
    cbn [Popup.optimizationResult fst]. split; [reflexivity|].
    cbn [Popup.with_optimized Popup.optimized Popup.original Popup.techniques_used].
    now rewrite replaceAt_slice.
  - intros sel o Hsel Hs He Ho Hneq.
    destruct (placeholders_from_ok _ _ _ (parseVariablesFromText_spec t)) as [Hok Hseq].
    pose proof (in_sequence_disjoint _ _ Hseq) as Hdis.
    rewrite Forall_forall in Hok.
    destruct (Hok o Ho) as (Hoend & Hoslice & _ & _ & Holen).
    destruct (Hok sel Hsel) as (Hsend & _ & _ & _ & Hslen).
    destruct (ForallOrdPairs_In Hdis o sel Ho Hsel) as [Heq | [Hd | Hd]];
      [contradiction | |]; unfold disjoint in Hd.
    + destruct Hd as [Hd | Hd].
      * left. split; [lia|]. subst t'.
        rewrite slice_before_replacement by lia. exact Hoslice.
      * right. split; [lia|]. subst t'.
        rewrite slice_after_replacement by lia. exact Hoslice.
    + destruct Hd as [Hd | Hd].
      * right. split; [lia|]. subst t'.
        rewrite slice_after_replacement by lia. exact Hoslice.
      * left. split; [lia|]. subst t'.
        rewrite slice_before_replacement by lia. exact Hoslice.
Qed.

Lemma handleReplaceVariable_replaces_selected_span_witness :
  (exists st' b' r',
      Popup.handleReplaceVariable (str "id-1") 1 false None first_NAME_selected fresh_browser
        = (Ok st', b') /\
      Popup.optimizationResult st' = Some r' /\
      Popup.optimized r' = str "Hi Bob and [NAME] again" /\
      Popup.original r' = str "greet twice" /\
      Popup.techniques_used r' = []) /\
  slice (str "Hi Bob and [NAME] again") 11 17 = str "[NAME]".
Proof.
  pose proof (handleReplaceVariable_replaces_selected_span (str "id-1") 1 false None
                first_NAME_selected fresh_browser greeting eq_refl
                (or_intror (or_intror eq_refl))) as [Htext Hothers].
  split; [exact Htext|].
  destruct (Hothers (mkParsed (str "NAME") 3 9) (mkParsed (str "NAME") 14 20))
    as [[Hle _] | [_ Hslice]].
  - simpl; tauto.
  - reflexivity.
  - reflexivity.
  - simpl; tauto.
  - discriminate.
  - simpl in Hle. lia.
  - exact Hslice.
Defined.

(** C9: confirming with [useExisting = true] and a selected variable
    returns normally and leaves the environment, hence the persisted
    variable collection, exactly as it was; the variables held in the state
    are unchanged, and the text, when a result is on display, becomes
    [t.slice(0, start) + selectedVariable.value + t.slice(end)]. *)
Theorem handleReplaceVariable_existing_is_read_only :
  forall uuid now selectedVariable0 st b,
    exists st',
      Popup.handleReplaceVariable uuid now true (Some selectedVariable0) st b = (Ok st', b) /\
      persisted (snd (Popup.handleReplaceVariable uuid now true (Some selectedVariable0) st b))
        = persisted b /\
      Popup.userVariables st' = Popup.userVariables st /\
      match Popup.optimizationResult st with
      | Some r =>
          let pos := Popup.position (Popup.variableReplaceDialog st) in
          Popup.optimizationResult st' =
            Some (Popup.with_optimized r
                    (slice (Popup.optimized r) 0 (Popup.start pos)
                     ++ value selectedVariable0
                     ++ slice_from (Popup.optimized r) (Popup.end_ pos)))
      | None => st' = st
      end.
Proof.
  intros uuid now sv st b. unfold Popup.handleReplaceVariable.
  destruct (Popup.optimizationResult st) as [r|] eqn:Hr.
  - eexists. unfold bind, ret. cbn [fst snd]. repeat split.
  - exists st. unfold ret. cbn [fst snd]. repeat split.
Qed.

(** ** The preview *)

(** C5: for the text ["{{ name }}"] and the variable [name] with value
    ["Bob"], the occurrence is found and its trimmed name matches the
    variable, yet the preview is the text unchanged: the loop replaces the
    first occurrence of the rebuilt ["{{name}}"], which the text does not
    contain.  Replacing the span of the occurrence gives ["Bob"]. *)
Theorem preview_keeps_spaced_placeholder :
  exec Preview.variable_pattern (str "{{ name }}") 0
    = Some (mkMatch 0 (str "{{ name }}") (str " name ")) /\
  Preview.trim (str " name ") = str "name" /\
  Preview.generatePreview_run (str "{{ name }}") name_is_Bob = Some (str "{{ name }}") /\
  Preview.previewEffect true (str "{{ name }}") name_is_Bob [] = str "{{ name }}" /\
  Preview.generatePreview (str "{{name}}") name_is_Bob = str "Bob" /\
  Preview.preview_by_spans (str "{{ name }}") name_is_Bob = str "Bob".
Proof. repeat split. Qed.

(** * Further properties *)

(** ** The variable store: lookups and round trips *)

Import StorageMore.

Lemma find_app_miss {A} (f : A -> bool) pre l :
  forallb (fun x => negb (f x)) pre = true -> find f (pre ++ l) = find f l.
Proof.
  induction pre as [|x pre IH]; simpl; intros H; [reflexivity|].
  apply andb_prop in H. destruct H as [Hx Hpre].
  destruct (f x); [discriminate | auto].
Qed.

Lemma existsb_none {A} (f : A -> bool) l :
  forallb (fun x => negb (f x)) l = true -> existsb f l = false.
Proof.
  induction l as [|x l IH]; simpl; intros H; [reflexivity|].
  apply andb_prop in H. destruct H as [Hx Hl].
  destruct (f x); [discriminate | auto].
Qed.

Lemma upsert_find nv l :
  find (named (name nv)) (upsert nv l) = Some nv.
Proof.
  destruct (upsert_shape nv l) as (pre & post & -> & Hpre & _).
  rewrite (find_app_miss _ _ _ Hpre). simpl.
  unfold named. now rewrite jsstring_eqb_refl.
Qed.

Lemma update_missing_noop b now variable :
  ~ In (id variable) (map id (persisted b)) ->
  updateUserVariable now variable b = (Ok variable, b).
Proof.
  intros Hin. rewrite updateUserVariable_eq. cbv zeta.
  rewrite findIndex_absent; [reflexivity|].
  intros H. apply Hin. apply in_map_iff in H. destruct H as (v & Hv & H).
  apply in_map_iff. exists v. split; [exact Hv | now apply visible_incl].
Qed.

Lemma removeUserVariable_healthy id0 b :
  healthy b ->
  removeUserVariable id0 b
  = (Ok tt, written b (filter (fun v => negb (has_id id0 v)) (persisted b))).
Proof.
  intros H. rewrite removeUserVariable_eq, (visible_healthy b H).
  destruct H as (-> & _ & ->). reflexivity.
Qed.

Lemma filter_has_id_absent id0 l :
  ~ In id0 (map id l) -> filter (fun v => negb (has_id id0 v)) l = l.
Proof.
  induction l as [|v l IH]; simpl; intros H; [reflexivity|].
  destruct (has_id id0 v) eqn:E.
  - apply jsstring_eqb_eq in E. tauto.
  - simpl. f_equal. apply IH. tauto.
Qed.

(** X1.  On a working store [removeUserVariable] keeps, in order, exactly the
    variables whose id differs from the given one; no variable with that id
    remains, removing again changes nothing, and removing an id that no
    variable has leaves the collection as it was. *)
Theorem removeUserVariable_removes_by_id :
  forall b id0,
    healthy b ->
    let b' := snd (removeUserVariable id0 b) in
    fst (removeUserVariable id0 b) = Ok tt /\
    persisted b' = filter (fun v => negb (jsstring_eqb (id v) id0)) (persisted b) /\
    ~ In id0 (ids (persisted b')) /\
    (forall v, In v (persisted b) -> id v <> id0 -> In v (persisted b')) /\
    persisted (snd (removeUserVariable id0 b')) = persisted b' /\
    (~ In id0 (ids (persisted b)) -> persisted b' = persisted b).
Proof.
  intros b id0 Hb b'. subst b'. rewrite (removeUserVariable_healthy id0 b Hb). cbn [fst snd].
  rewrite (removeUserVariable_healthy id0 _ (written_healthy b _ Hb)). cbn [snd].
  rewrite !persisted_written.
  assert (Hgone : ~ In id0 (ids (filter (fun v => negb (has_id id0 v)) (persisted b)))).
  { unfold ids. intros H. apply in_map_iff in H. destruct H as (v & Hv & Hin).
    apply filter_In in Hin. destruct Hin as [_ Hin].
    apply negb_true_iff, jsstring_eqb_neq in Hin. congruence. }
  repeat split; auto.
  - intros v Hv Hne. apply filter_In. split; [exact Hv|].
    apply negb_true_iff, jsstring_eqb_neq. exact Hne.
  - now apply filter_has_id_absent.
  - apply filter_has_id_absent.
Qed.

Lemma removeUserVariable_removes_by_id_witness :
  persisted (snd (removeUserVariable (str "id-1") healthy_A)) = [] /\
  persisted (snd (removeUserVariable (str "id-9") healthy_A)) = stored_A.
Proof.
  split.
  - exact (proj1 (proj2 (removeUserVariable_removes_by_id healthy_A (str "id-1")
                           (conj eq_refl (conj eq_refl eq_refl))))).
  - apply (removeUserVariable_removes_by_id healthy_A (str "id-9")
             (conj eq_refl (conj eq_refl eq_refl))).
    simpl. intros [H | []]. discriminate H.
Defined.

(** X2.  On a working store, after [addUserVariable] the first variable with
    the given name is the record just built, the stored collection is what
    [getUserVariables] returns, and the collection has grown by one exactly
    when no variable had that name. *)
Theorem addUserVariable_then_lookup :
  forall b uuid now variable,
    healthy b ->
    let nv := newVariable uuid now variable in
    let b' := snd (addUserVariable uuid now variable b) in
    find (fun v => jsstring_eqb (name v) (in_name variable)) (persisted b') = Some nv /\
    getUserVariables b' = (Ok (persisted b'), b') /\
    length (persisted b') =
      (if existsb (fun v => jsstring_eqb (name v) (in_name variable)) (persisted b)
       then length (persisted b) else S (length (persisted b))).
Proof.
  intros b uuid now variable Hb nv b'. subst b'.
  rewrite (addUserVariable_healthy uuid now variable b Hb). cbn [snd].
  rewrite getUserVariables_eq, (visible_healthy _ (written_healthy b _ Hb)).
  rewrite !persisted_written. fold nv.
  destruct (upsert_shape nv (persisted b)) as (pre & post & Hup & Hpre & Hcase).
  change (name nv) with (in_name variable) in Hpre, Hcase. rewrite Hup.
  assert (Hnv : named (in_name variable) nv = true) by apply jsstring_eqb_refl.
  repeat split.
  - change (fun v => jsstring_eqb (name v) (in_name variable)) with (named (in_name variable)).
    rewrite (find_app_miss _ _ _ Hpre). simpl. now rewrite Hnv.
  - change (fun v => jsstring_eqb (name v) (in_name variable)) with (named (in_name variable)).
    destruct Hcase as [[-> ->] | (x & -> & Hx)].
    + rewrite (existsb_none _ _ Hpre), length_app. simpl. lia.
    + rewrite existsb_app. simpl. rewrite Hx, orb_true_r, !length_app. reflexivity.
Qed.

Lemma addUserVariable_then_lookup_witness :
  find (fun v => jsstring_eqb (name v) (str "B"))
       (persisted (snd (addUserVariable (str "id-2") 2 varB healthy_A)))
  = Some (newVariable (str "id-2") 2 varB).
Proof.
  exact (proj1 (addUserVariable_then_lookup healthy_A (str "id-2") 2 varB
                  (conj eq_refl (conj eq_refl eq_refl)))).
Defined.

(** X3.  On a working store, adding a variable whose name and generated id
    are both new and then removing it by the returned id restores the
    collection. *)
Theorem add_then_remove_restores :
  forall b uuid now variable,
    healthy b ->
    ~ In (in_name variable) (names (persisted b)) ->
    ~ In uuid (ids (persisted b)) ->
    let added := addUserVariable uuid now variable b in
    exists nv, fst added = Ok nv /\
      persisted (snd (removeUserVariable (id nv) (snd added))) = persisted b.
Proof.
  intros b uuid now variable Hb Hname Hid added. subst added.
  rewrite (addUserVariable_healthy uuid now variable b Hb). cbn [fst snd].
  eexists. split; [reflexivity|].
  rewrite (removeUserVariable_healthy _ _ (written_healthy b _ Hb)). cbn [snd].
  rewrite !persisted_written. cbn [newVariable id].
  assert (Hmiss : findIndex (named (in_name variable)) (persisted b) = (-1)%Z).
  { apply findIndex_miss. apply forallb_not_In. intros v Hv.
    apply jsstring_eqb_neq. intros E. apply Hname. unfold names.
    apply in_map_iff. eauto. }
  unfold upsert. cbn [name newVariable]. rewrite Hmiss. cbn [Z.leb Z.compare].
  unfold push. rewrite filter_app. simpl.
  unfold has_id at 2. cbn [id]. rewrite jsstring_eqb_refl. simpl.
  rewrite app_nil_r. now apply filter_has_id_absent.
Qed.

Lemma add_then_remove_restores_witness :
  persisted (snd (removeUserVariable (str "id-2")
                    (snd (addUserVariable (str "id-2") 2 varB healthy_A))))
  = stored_A.
Proof.
  destruct (add_then_remove_restores healthy_A (str "id-2") 2 varB
              (conj eq_refl (conj eq_refl eq_refl))) as (nv & Hnv & Hback).
  - simpl. intros [H | []]. discriminate H.
  - simpl. intros [H | []]. discriminate H.
  - simpl in Hnv. inversion Hnv; subst nv. exact Hback.
Defined.

Lemma ids_app l1 l2 : ids (l1 ++ l2) = ids l1 ++ ids l2.
Proof. apply map_app. Qed.

Lemma ids_visible_cases b :
  visible b = persisted b \/ visible b = [].
Proof.
  unfold visible. destruct (storage_local_present b); [|now right].
  destruct (get_rejects b); [now right | now left].
Qed.

Lemma update_ids_unchanged b now variable :
  map id (persisted (snd (updateUserVariable now variable b))) = map id (persisted b).
Proof.
  rewrite updateUserVariable_eq. cbv zeta.
  destruct (findIndex_cases (has_id (id variable)) (visible b))
    as [[_ Hm] | (pre & x & post & Hl & Hpre & Hx & Hi)].
  - rewrite Hm. reflexivity.
  - rewrite Hi. destruct (Z.leb_spec 0 (Z.of_nat (length pre))); [|lia].
    rewrite Nat2Z.id, Hl, array_set_middle.
    destruct (storage_local_present b); [|reflexivity].
    destruct (set_rejects b); [reflexivity|]. cbn [snd]. rewrite persisted_written.
    destruct (ids_visible_cases b) as [E | E].
    + rewrite <- E, Hl, !map_app. simpl. apply jsstring_eqb_eq in Hx. now rewrite Hx.
    + rewrite E in Hl. destruct pre; discriminate.
Qed.

(** X4.  [updateUserVariable] never changes which ids are stored, nor their
    order, in any environment; on a working store that holds the id, the
    first variable with that id is afterwards the updated record. *)
Theorem updateUserVariable_keeps_ids :
  forall b now variable,
    ids (persisted (snd (updateUserVariable now variable b))) = ids (persisted b) /\
    (healthy b ->
     In (id variable) (ids (persisted b)) ->
     find (fun v => jsstring_eqb (id v) (id variable))
          (persisted (snd (updateUserVariable now variable b)))
       = Some (updatedVariable now variable)).
Proof.
  intros b now variable. split; [apply update_ids_unchanged|].
  intros Hb Hin. rewrite updateUserVariable_eq, (visible_healthy b Hb). cbv zeta.
  destruct (findIndex_cases (has_id (id variable)) (persisted b))
    as [[Hall _] | (pre & x & post & Hl & Hpre & Hx & Hi)].
  - exfalso. unfold ids in Hin. apply in_map_iff in Hin. destruct Hin as (v & Hv & Hin).
    apply (proj1 (forallb_not_In _ _) Hall) in Hin.
    apply jsstring_eqb_neq in Hin. congruence.
  - rewrite Hi. destruct (Z.leb_spec 0 (Z.of_nat (length pre))); [|lia].
    rewrite Nat2Z.id, Hl, array_set_middle.
    destruct Hb as (-> & _ & ->). cbn [snd]. rewrite persisted_written.
    change (fun v => jsstring_eqb (id v) (id variable)) with (has_id (id variable)).
    rewrite (find_app_miss _ _ _ Hpre). simpl.
    unfold has_id at 1. cbn [id updatedVariable]. now rewrite jsstring_eqb_refl.
Qed.

Lemma updateUserVariable_keeps_ids_witness :
  find (fun v => jsstring_eqb (id v) (str "id-1"))
       (persisted (snd (updateUserVariable 7
                          (mkUserVariable (str "id-1") (str "A") (str "9") None None 0)
                          healthy_A)))
  = Some (mkUserVariable (str "id-1") (str "A") (str "9") None None 7).
Proof.
  apply (proj2 (updateUserVariable_keeps_ids healthy_A 7
                  (mkUserVariable (str "id-1") (str "A") (str "9") None None 0))).
  - repeat split.
  - simpl. left. reflexivity.
Defined.

Lemma NoDup_replace_middle {A} (l l' : list A) a c :
  NoDup (l ++ a :: l') -> ~ In c (l ++ a :: l') -> NoDup (l ++ c :: l').
Proof.
  induction l as [|x l IH]; simpl; intros Hnd Hc.
  - inversion Hnd; subst. constructor; tauto.
  - inversion Hnd as [|? ? Hx Hrest]; subst. constructor.
    + intros Hin. apply Hx. apply in_app_or in Hin. apply in_or_app.
      destruct Hin as [Hin | [Hin | Hin]]; [now left | | right; now right].
      exfalso. apply Hc. now left.
    + apply IH; tauto.
Qed.

(** X5.  Ids stay unique: when the stored ids are pairwise distinct and the
    id generated for an addition is not among them, they are pairwise
    distinct after any single operation, in every environment. *)
Theorem operations_keep_ids_unique :
  forall op b,
    NoDup (ids (persisted b)) ->
    (forall uuid now variable,
        op = AddUserVariable uuid now variable -> ~ In uuid (ids (persisted b))) ->
    NoDup (ids (persisted (run_op op b))).
Proof.
  intros op b Hnd Hfresh.
  assert (Hvis : NoDup (ids (visible b)))
    by (destruct (ids_visible_cases b) as [-> | ->]; [exact Hnd | constructor]).
  destruct op as [uuid now variable | now variable | id0]; simpl.
  - specialize (Hfresh uuid now variable eq_refl).
    assert (Hfv : ~ In uuid (ids (visible b))).
    { destruct (ids_visible_cases b) as [-> | ->]; [exact Hfresh | intros []]. }
    rewrite addUserVariable_eq. cbv zeta.
    destruct (storage_local_present b); [|exact Hnd].
    destruct (set_rejects b); [exact Hnd|]. cbn [snd]. rewrite persisted_written.
    change (NoDup (ids (upsert (newVariable uuid now variable) (visible b)))).
    destruct (upsert_shape (newVariable uuid now variable) (visible b))
      as (pre & post & -> & _ & [[Hl ->] | (x & Hl & _)]).
    + rewrite ids_app. simpl. rewrite <- Hl.
      apply NoDup_app; auto.
      * constructor; [intros [] | constructor].
      * intros i Hi [<- | []]. contradiction.
    + rewrite Hl, ids_app in Hvis, Hfv. rewrite ids_app.
      apply (NoDup_replace_middle _ _ _ _ Hvis Hfv).
  - unfold ids. rewrite (update_ids_unchanged b now variable). exact Hnd.
  - rewrite removeUserVariable_eq. cbv zeta.
    destruct (storage_local_present b); [|exact Hnd].
    destruct (set_rejects b); [exact Hnd|]. cbn [snd]. rewrite persisted_written.
    clear - Hvis. induction (visible b) as [|v l IH]; simpl; [constructor|].
    inversion Hvis as [|? ? Hnot Hrest]; subst.
    destruct (negb (has_id id0 v)); simpl; auto. constructor; auto.
    intros Hin. apply Hnot. unfold ids in *. apply in_map_iff in Hin.
    destruct Hin as (w & Hw & Hin). apply filter_In in Hin.
    apply in_map_iff. exists w. tauto.
Qed.

Lemma operations_keep_ids_unique_witness :
  NoDup (ids (persisted (run_op (AddUserVariable (str "id-2") 2 varB) healthy_A))).
Proof.
  apply operations_keep_ids_unique.
  - simpl. constructor; [intros [] | constructor].
  - intros uuid now variable E. inversion E; subst. simpl.
    intros [H | []]. discriminate H.
Defined.

(** ** The stores when reading fails or the API is missing *)

(** X6.  When the storage API is present, its [get] rejects and its [set]
    works, the operations proceed as on an empty collection and overwrite
    what was stored: [addUserVariable] leaves the new variable alone,
    [removeUserVariable] leaves nothing, [addRecentPrompt] leaves the new
    entry alone; [updateUserVariable] finds no id and writes nothing. *)
Theorem failing_get_overwrites_collections :
  forall b e,
    storage_local_present b = true ->
    get_rejects b = Some e ->
    set_rejects b = None ->
    (forall uuid now variable,
        fst (addUserVariable uuid now variable b) = Ok (newVariable uuid now variable) /\
        persisted (snd (addUserVariable uuid now variable b))
          = [newVariable uuid now variable]) /\
    (forall id0,
        fst (removeUserVariable id0 b) = Ok tt /\
        persisted (snd (removeUserVariable id0 b)) = []) /\
    (forall now variable, updateUserVariable now variable b = (Ok variable, b)) /\
    (forall uuid now prompt,
        fst (addRecentPrompt uuid now prompt b) = Ok tt /\
        buffer (snd (addRecentPrompt uuid now prompt b)) = [entry (uuid, now, prompt)]).
Proof.
  intros b e Hp Hg Hs.
  assert (Hvis : visible b = []) by (unfold visible; now rewrite Hp, Hg).
  repeat split.
  - rewrite addUserVariable_eq. cbv zeta. now rewrite Hp, Hs.
  - rewrite addUserVariable_eq. cbv zeta. rewrite Hp, Hs, Hvis. reflexivity.
  - rewrite removeUserVariable_eq. cbv zeta. now rewrite Hp, Hs.
  - rewrite removeUserVariable_eq. cbv zeta. rewrite Hp, Hs, Hvis. reflexivity.
  - intros now variable. rewrite updateUserVariable_eq. cbv zeta. now rewrite Hvis.
  - unfold addRecentPrompt, getRecentPrompts, bind, safe_get, safe_set, try_catch,
      browser_get_recent_prompts, browser_set_recent_prompts, ret.
    rewrite Hp, Hg. simpl. now rewrite Hp, Hs.
  - unfold addRecentPrompt, getRecentPrompts, bind, safe_get, safe_set, try_catch,
      browser_get_recent_prompts, browser_set_recent_prompts, ret.
    rewrite Hp, Hg. simpl. now rewrite Hp, Hs.
Qed.

Lemma failing_get_overwrites_collections_witness :
  persisted (snd (removeUserVariable (str "id-9") get_fails)) = [] /\
  persisted get_fails = stored_A.
Proof.
  split; [|reflexivity].
  apply (proj1 (proj2 (failing_get_overwrites_collections get_fails (str "read error")
                         eq_refl eq_refl eq_refl))).
Defined.

(** X7.  When the storage API is missing, every operation reports success
    and nothing is stored: reads give empty lists, [addUserVariable] returns
    a record that was never written, and the environment stays as it was. *)
Theorem missing_api_stores_nothing :
  forall b,
    storage_local_present b = false ->
    getUserVariables b = (Ok [], b) /\
    getRecentPrompts b = (Ok [], b) /\
    (forall uuid now variable,
        addUserVariable uuid now variable b = (Ok (newVariable uuid now variable), b)) /\
    (forall now variable, updateUserVariable now variable b = (Ok variable, b)) /\
    (forall id0, removeUserVariable id0 b = (Ok tt, b)) /\
    (forall uuid now prompt, addRecentPrompt uuid now prompt b = (Ok tt, b)) /\
    (forall rejects, clearUserVariables rejects b = (Ok tt, b)) /\
    (forall rejects, clearRecentPrompts rejects b = (Ok tt, b)) /\
    (forall rejects, clearAllStorage rejects b = (Ok tt, b)).
Proof.
  intros b Hp.
  assert (Hvis : visible b = []) by (unfold visible; now rewrite Hp).
  repeat split; intros.
  - now rewrite getUserVariables_eq, Hvis.
  - unfold getRecentPrompts, bind, safe_get, try_catch, ret. now rewrite Hp.
  - rewrite addUserVariable_eq. cbv zeta. now rewrite Hp.
  - rewrite updateUserVariable_eq. cbv zeta. now rewrite Hvis.
  - rewrite removeUserVariable_eq. cbv zeta. now rewrite Hp.
  - unfold addRecentPrompt, getRecentPrompts, bind, safe_get, safe_set, try_catch, ret.
    rewrite Hp. simpl. now rewrite Hp.
  - unfold clearUserVariables, safe_remove, try_catch. now rewrite Hp.
  - unfold clearRecentPrompts, safe_remove, try_catch. now rewrite Hp.
  - unfold clearAllStorage, safe_clear, try_catch. now rewrite Hp.
Qed.

Lemma missing_api_stores_nothing_witness :
  addUserVariable (str "id-2") 2 varB
    (mkBrowser false None None (mkLocalStorage None None))
  = (Ok (newVariable (str "id-2") 2 varB),
     mkBrowser false None None (mkLocalStorage None None)).
Proof.
  apply (missing_api_stores_nothing (mkBrowser false None None (mkLocalStorage None None))
           eq_refl).
Defined.

(** ** The recent-prompt buffer: bound and clearing *)

(** X8.  The buffer never grows past twenty entries: in every environment,
    a buffer of at most twenty entries has at most twenty after any
    additions, and on a working store a single addition brings a buffer of
    any length down to at most twenty, the new entry first. *)
Theorem recent_prompts_bounded :
  forall b,
    (forall adds, length (buffer b) <= 20 -> length (buffer (add_all adds b)) <= 20) /\
    (forall uuid now prompt,
        healthy b ->
        length (buffer (snd (addRecentPrompt uuid now prompt b))) <= 20 /\
        hd_error (buffer (snd (addRecentPrompt uuid now prompt b)))
          = Some (entry (uuid, now, prompt))).
Proof.
  intros b. split.
  - intros adds. revert b. induction adds as [|[[uuid now] prompt] adds IH]; intros b Hlen.
    + exact Hlen.
    + unfold add_all. cbn [fold_left]. fold (add_all adds). apply IH.
      unfold addRecentPrompt, getRecentPrompts, bind, safe_get, safe_set, try_catch,
        browser_get_recent_prompts, browser_set_recent_prompts, ret, throw.
      destruct (storage_local_present b) eqn:Hp; cbn [negb]; [|simpl; now rewrite Hp].
      destruct (get_rejects b); cbn [fst snd]; rewrite Hp; cbn [negb];
        (destruct (set_rejects b); cbn [snd]; [exact Hlen|]);
        unfold buffer; cbn [local with_local recent_prompts or_empty];
        rewrite length_firstn; lia.
  - intros uuid now prompt Hb. rewrite (addRecentPrompt_healthy uuid now prompt b Hb).
    unfold buffer at 1 2. cbn [snd local with_local recent_prompts or_empty].
    split; [rewrite length_firstn; lia | reflexivity].
Qed.

Lemma recent_prompts_bounded_witness :
  length (buffer (add_all twenty_one fresh_browser)) <= 20.
Proof.
  apply (proj1 (recent_prompts_bounded fresh_browser) twenty_one). simpl. lia.
Defined.

(** X9.  Clearing: on a present API whose [remove] works,
    [clearUserVariables] empties what [getUserVariables] reads and leaves
    the recent prompts alone, [clearRecentPrompts] does the converse, and
    clearing twice is clearing once; when [remove] rejects, the error is
    thrown and nothing changes. *)
Theorem clearing_removes_one_key :
  forall b,
    storage_local_present b = true ->
    visible (snd (clearUserVariables None b)) = [] /\
    buffer (snd (clearUserVariables None b)) = buffer b /\
    buffer (snd (clearRecentPrompts None b)) = [] /\
    persisted (snd (clearRecentPrompts None b)) = persisted b /\
    snd (clearUserVariables None (snd (clearUserVariables None b)))
      = snd (clearUserVariables None b) /\
    persisted (snd (clearAllStorage None b)) = [] /\
    buffer (snd (clearAllStorage None b)) = [] /\
    (forall e, clearUserVariables (Some e) b = (Throw e, b) /\
               clearRecentPrompts (Some e) b = (Throw e, b) /\
               clearAllStorage (Some e) b = (Throw e, b)).
Proof.
  intros b Hp.
  unfold clearUserVariables, clearRecentPrompts, clearAllStorage, safe_remove, safe_clear,
    try_catch, browser_remove_user_variables, browser_remove_recent_prompts, browser_clear,
    throw.
  rewrite Hp. cbn [negb fst snd].
  unfold visible, persisted, buffer, with_local.
  cbn [local user_variables recent_prompts storage_local_present get_rejects or_empty negb snd].
  rewrite ?Hp. cbn [negb snd].
  repeat split; auto.
  destruct (get_rejects b); reflexivity.
Qed.

Lemma clearing_removes_one_key_witness :
  visible (snd (clearUserVariables None healthy_A)) = [] /\
  persisted healthy_A = stored_A.
Proof.
  split; [|reflexivity].
  apply (clearing_removes_one_key healthy_A eq_refl).
Defined.

(** ** The replacement dialog: failure, and creation followed by a click *)

Import TextNotions.

(** X10.  [handleReplaceVariable] never touches text or store when it cannot
    complete: without a result on display it returns at once, whatever the
    arguments, and when it has to create the variable and the write is
    rejected, the error is thrown, no state is set and the store is as it
    was. *)
Theorem handleReplaceVariable_incomplete_changes_nothing :
  forall uuid now useExisting0 selected st b,
    (Popup.optimizationResult st = None ->
     Popup.handleReplaceVariable uuid now useExisting0 selected st b = (Ok st, b)) /\
    (forall r e,
        Popup.optimizationResult st = Some r ->
        useExisting0 = false \/ selected = None ->
        storage_local_present b = true ->
        set_rejects b = Some e ->
        Popup.handleReplaceVariable uuid now useExisting0 selected st b = (Throw e, b)).
Proof.
  intros uuid now useExisting0 selected st b. split.
  - intros Hr. unfold Popup.handleReplaceVariable. now rewrite Hr.
  - intros r e Hr Hbranch Hp Hs. unfold Popup.handleReplaceVariable. rewrite Hr.
    unfold bind at 1.
    assert (Hadd : forall variable,
               (newVariable0 <- addUserVariable uuid now variable ;;
                variables <- getUserVariables ;;
                ret (value newVariable0, variables)) b = (Throw e, b)).
    { intros variable. unfold bind at 1. rewrite addUserVariable_eq. cbv zeta.
      now rewrite Hp, Hs. }
    destruct useExisting0, selected as [sv|]; try (now rewrite Hadd);
      destruct Hbranch; discriminate.
Qed.

Lemma handleReplaceVariable_incomplete_changes_nothing_witness :
  Popup.handleReplaceVariable (str "id-2") 2 false None first_NAME_selected set_fails
  = (Throw (str "write error"), set_fails).
Proof.
  apply (proj2 (handleReplaceVariable_incomplete_changes_nothing (str "id-2") 2 false None
                  first_NAME_selected set_fails) greeting (str "write error"));
    try reflexivity.
  now left.
Defined.

(** X11.  On a working store, confirming the dialog with a new value stores
    the variable, refreshes the variables of the state to the persisted
    collection, and a later click on any occurrence of the same name opens
    the dialog with that value filled in. *)
Theorem created_value_prefills_next_click :
  forall uuid now st b r,
    healthy b ->
    Popup.optimizationResult st = Some r ->
    exists st' b',
      Popup.handleReplaceVariable uuid now false None st b = (Ok st', b') /\
      Popup.userVariables st' = persisted b' /\
      forall s e,
        let clicked :=
          Popup.handleVariableClick (Popup.variableName (Popup.variableReplaceDialog st))
                                    s e st' in
        Popup.open (Popup.variableReplaceDialog clicked) = true /\
        Popup.position (Popup.variableReplaceDialog clicked) = Popup.mkPosition s e /\
        Popup.currentValue (Popup.variableReplaceDialog clicked)
          = Popup.currentValue (Popup.variableReplaceDialog st).
Proof.
  intros uuid now st b r Hb Hr.
  unfold Popup.handleReplaceVariable. rewrite Hr.
  set (variable := mkUserVariableInput (Popup.variableName (Popup.variableReplaceDialog st))
                     (Popup.currentValue (Popup.variableReplaceDialog st))
                     (Some (str "Variable for " ++ Popup.variableName (Popup.variableReplaceDialog st)))
                     (Some (str "general"))).
  pose proof (upsert_find (newVariable uuid now variable) (persisted b)) as Hfind.
  unfold bind. rewrite (addUserVariable_healthy uuid now variable b Hb).
  rewrite getUserVariables_eq, (visible_healthy _ (written_healthy b _ Hb)).
  unfold ret. cbn [fst snd]. rewrite persisted_written.
  do 2 eexists. split; [reflexivity|]. split; [reflexivity|].
  intros s e. unfold Popup.handleVariableClick.
  cbn [Popup.variableReplaceDialog Popup.userVariables Popup.open Popup.position
       Popup.currentValue].
  change (fun v => jsstring_eqb (name v) (Popup.variableName (Popup.variableReplaceDialog st)))
    with (named (name (newVariable uuid now variable))).
  rewrite Hfind. repeat split.
Qed.

Lemma created_value_prefills_next_click_witness :
  exists st' b',
    Popup.handleReplaceVariable (str "id-1") 1 false None first_NAME_selected fresh_browser
      = (Ok st', b') /\
    Popup.currentValue
      (Popup.variableReplaceDialog (Popup.handleVariableClick (str "NAME") 11 17 st'))
      = str "Bob".
Proof.
  destruct (created_value_prefills_next_click (str "id-1") 1 first_NAME_selected
              fresh_browser greeting (conj eq_refl (conj eq_refl eq_refl)) eq_refl)
    as (st' & b' & Hrun & _ & Hclick).
  exists st', b'. split; [exact Hrun|].
  exact (proj2 (proj2 (Hclick 11 17))).
Defined.

(** ** [InteractiveText]: the boxes and the spans *)

Lemma boxes_app a b : boxes (a ++ b) = boxes a ++ boxes b.
Proof. apply flat_map_app. Qed.

Lemma spans_app a b : spans (a ++ b) = spans a ++ spans b.
Proof. apply flat_map_app. Qed.

Lemma forEach_boxes t : forall variables elements lastIndex,
  Forall (occurrence_ok t) variables ->
  in_sequence lastIndex variables ->
  boxes (fst (fold_left (forEach_body t) variables (elements, lastIndex)))
    = boxes elements ++ variables /\
  (Forall (fun s => s <> []) (spans elements) ->
   Forall (fun s => s <> [])
          (spans (fst (fold_left (forEach_body t) variables (elements, lastIndex))))).
Proof.
  induction variables as [|o variables IH]; intros elements lastIndex Hok Hseq; simpl.
  - rewrite app_nil_r. auto.
  - inversion Hok as [|? ? Ho Hok']; subst.
    destruct Hseq as (Hlo & Hlt & Hseq').
    destruct Ho as (Hend & _ & _ & _ & Hbound).
    match goal with |- context [fold_left _ _ (?els, _)] => set (els1 := els) end.
    destruct (IH els1 (end_ o) Hok' Hseq') as [IHb IHs].
    assert (Hb1 : boxes els1 = boxes elements ++ [o]).
    { subst els1. rewrite boxes_app. simpl. destruct o; simpl.
      destruct (lastIndex <? start0); [rewrite boxes_app; simpl; now rewrite app_nil_r | reflexivity]. }
    split.
    + rewrite IHb, Hb1, <- app_assoc. reflexivity.
    + intros Hsp. apply IHs. subst els1. rewrite spans_app. simpl. rewrite app_nil_r.
      destruct (Nat.ltb_spec lastIndex (start o)); [|exact Hsp].
      rewrite spans_app. simpl. apply Forall_app. split; [exact Hsp|].
      constructor; [|constructor].
      rewrite substring_slice by lia. unfold slice. intros E.
      apply (f_equal (@length ascii)) in E.
      rewrite length_firstn, length_skipn in E. simpl in E. lia.
Qed.

(** X12.  The clickable boxes [InteractiveText] renders are, in order, the
    occurrences the parser reports, each with its name and offsets; a text
    without placeholders is rendered as one span; and when there are
    placeholders no empty text span is rendered. *)
Theorem InteractiveText_boxes_are_occurrences :
  forall t,
    boxes (InteractiveText t) = parseVariablesFromText t /\
    (parseVariablesFromText t = [] -> InteractiveText t = [TextSpan t]) /\
    (parseVariablesFromText t <> [] ->
     Forall (fun s => s <> []) (spans (InteractiveText t))).
Proof.
  intros t. unfold InteractiveText.
  destruct (placeholders_from_ok _ _ _ (parseVariablesFromText_spec t)) as [Hok Hseq].
  destruct (forEach_boxes t _ [] 0 Hok Hseq) as [Hb Hs].
  destruct (forEach_text t _ [] 0 Hok Hseq (Nat.le_0_l _)) as [_ Hle].
  destruct (Nat.eqb_spec (length (parseVariablesFromText t)) 0) as [H0 | Hn].
  - apply length_zero_iff_nil in H0. rewrite H0. repeat split; auto. congruence.
  - destruct (fold_left (forEach_body t) (parseVariablesFromText t) ([], 0))
      as [elements lastIndex]. simpl in Hb, Hs, Hle.
    assert (Hs' : Forall (fun s => s <> []) (spans elements)) by (apply Hs; constructor).
    repeat split.
    + destruct (lastIndex <? length t); [|exact Hb].
      rewrite boxes_app, Hb. simpl. apply app_nil_r.
    + intros E. rewrite E in Hn. simpl in Hn. congruence.
    + intros _. destruct (Nat.ltb_spec lastIndex (length t)); [|exact Hs'].
      rewrite spans_app. apply Forall_app. split; [exact Hs'|].
      simpl. constructor; [|constructor].
      unfold substring_from. intros E. apply (f_equal (@length ascii)) in E.
      rewrite length_skipn in E. simpl in E. lia.
Qed.

Lemma InteractiveText_boxes_are_occurrences_witness :
  Forall (fun s => s <> []) (spans (InteractiveText (str "Hi [NAME] and [NAME] again"))).
Proof.
  apply (proj2 (proj2 (InteractiveText_boxes_are_occurrences
                         (str "Hi [NAME] and [NAME] again")))).
  discriminate.
Defined.

(** ** The parser reads a placeholder from the text that follows its start *)

Lemma skipn_app_le {A} (t u : list A) i :
  i <= length t -> skipn i (t ++ u) = skipn i t ++ u.
Proof.
  intros H. rewrite skipn_app. replace (i - length t) with 0 by lia. reflexivity.
Qed.

Lemma In_skipn {A} (x : A) k l : In x (skipn k l) -> In x l.
Proof.
  intros H. rewrite <- (firstn_skipn k l). apply in_or_app. now right.
Qed.

Lemma run_except_app_in stop a b :
  In stop a -> run_except stop (a ++ b) = run_except stop a.
Proof.
  induction a as [|c a IH]; simpl; intros H; [contradiction|].
  destruct (Ascii.eqb_spec c stop); [reflexivity|].
  f_equal. apply IH. destruct H; [congruence | assumption].
Qed.

Lemma run_except_rest_in stop a :
  In stop a -> exists r, skipn (length (run_except stop a)) a = stop :: r.
Proof.
  induction a as [|c a IH]; simpl; intros H; [contradiction|].
  destruct (Ascii.eqb_spec c stop) as [-> |]; simpl; [eauto|].
  apply IH. destruct H; [congruence | assumption].
Qed.

(** Once the text holds a [']'] after the position, what follows the text
    does not matter. *)
Lemma bracket_pattern_app c s' u :
  In RBRACKET s' -> bracket_pattern ((c :: s') ++ u) = bracket_pattern (c :: s').
Proof.
  intros H. simpl. destruct (Ascii.eqb c LBRACKET); [|reflexivity].
  cbv zeta. rewrite (run_except_app_in _ _ u H).
  destruct (run_except_rest_in _ _ H) as [r Hr].
  rewrite skipn_app_le, Hr.
  - reflexivity.
  - rewrite <- (run_except_split RBRACKET s') at 2. rewrite length_app. lia.
Qed.

Lemma placeholder_at_none t i :
  (forall n, ~ placeholder_at t i n) <-> bracket_pattern (skipn i t) = None.
Proof.
  split.
  - intros H. destruct (bracket_pattern (skipn i t)) as [[m0 m1]|] eqn:E; [|reflexivity].
    apply bracket_pattern_placeholder in E. destruct E as [E _]. now apply H in E.
  - intros E n Hn.
    assert (bracket_pattern (skipn i t) = Some (LBRACKET :: n ++ [RBRACKET], n))
      by (apply bracket_pattern_placeholder; auto).
    congruence.
Qed.

Lemma placeholder_at_app t u i n :
  placeholder_at t i n -> placeholder_at (t ++ u) i n.
Proof.
  intros H. pose proof (placeholder_at_bound _ _ _ H) as Hb.
  destruct H as (rest & Hs & Hne & Hfree).
  exists (rest ++ u). rewrite skipn_app_le by lia. rewrite Hs.
  repeat split; auto. simpl. now rewrite <- app_assoc.
Qed.

(** A placeholder of [t ++ u] that starts before a [']'] of [t] is a
    placeholder of [t]. *)
Lemma placeholder_at_app_inv t u i n :
  i < length t ->
  In RBRACKET (skipn (S i) t) ->
  placeholder_at (t ++ u) i n -> placeholder_at t i n.
Proof.
  intros Hi Hin H.
  assert (E : bracket_pattern (skipn i (t ++ u)) = Some (LBRACKET :: n ++ [RBRACKET], n))
    by (apply bracket_pattern_placeholder; auto).
  rewrite skipn_app_le in E by lia.
  destruct (skipn i t) as [|c s'] eqn:Es.
  - apply (f_equal (@length ascii)) in Es. rewrite length_skipn in Es. simpl in Es. lia.
  - assert (Hs' : skipn (S i) t = s').
    { replace (S i) with (1 + i) by lia. rewrite <- skipn_skipn, Es. reflexivity. }
    rewrite Hs' in Hin. rewrite (bracket_pattern_app c s' u Hin) in E.
    rewrite <- Es in E. apply bracket_pattern_placeholder in E. tauto.
Qed.

Lemma placeholder_at_has_close t i n j :
  placeholder_at t i n -> j <= i -> In RBRACKET (skipn j t).
Proof.
  intros (rest & Hs & _ & _) Hj.
  rewrite <- (firstn_skipn (i - j) (skipn j t)), skipn_skipn.
  replace (i - j + j) with i by lia.
  apply in_or_app. right. rewrite Hs. right. apply in_or_app. right. now left.
Qed.

(** Placeholders only depend on the text from their start on: two texts
    with a common suffix have the same placeholders in it. *)
Lemma placeholder_at_suffix t t' p p' k n :
  skipn p t = skipn p' t' ->
  placeholder_at t (p + k) n -> placeholder_at t' (p' + k) n.
Proof.
  intros Hsuf (rest & Hs & Hne & Hfree). exists rest. repeat split; auto.
  replace (p' + k) with (k + p') by lia. rewrite <- skipn_skipn, <- Hsuf, skipn_skipn.
  replace (k + p) with (p + k) by lia. exact Hs.
Qed.

Lemma placeholders_from_suffix t t' p p' :
  skipn p t = skipn p' t' ->
  forall pos l,
    placeholders_from t pos l -> p <= pos ->
    placeholders_from t' (pos - p + p') (map (moved p p') l).
Proof.
  intros Hsuf pos l H.
  induction H as [pos Hnone | pos i n rest Hle Hat Hleast Hrest IH]; intros Hp; simpl.
  - apply no_more. intros i n Hi Hat.
    apply (Hnone (i - p' + p) n); [lia|].
    replace (i - p' + p) with (p + (i - p')) by lia.
    apply (placeholder_at_suffix t' t p' p); [now symmetry|].
    replace (p' + (i - p')) with i by lia. exact Hat.
  - unfold moved at 1. simpl.
    replace (i + length n + 2 - p + p') with (i - p + p' + length n + 2) by lia.
    apply next_placeholder.
    + lia.
    + replace (i - p + p') with (p' + (i - p)) by lia.
      apply (placeholder_at_suffix t t' p p'); [assumption|].
      now replace (p + (i - p)) with i by lia.
    + intros i' n' Hi' Hat'. apply (Hleast (i' - p' + p) n'); [lia|].
      replace (i' - p' + p) with (p + (i' - p')) by lia.
      apply (placeholder_at_suffix t' t p' p); [now symmetry|].
      replace (p' + (i' - p')) with i' by lia. exact Hat'.
    + replace (i - p + p' + length n + 2) with (i + length n + 2 - p + p') by lia.
      apply IH. lia.
Qed.

Lemma placeholders_from_earlier t p l p0 :
  placeholders_from t p l -> p0 <= p ->
  (forall i n, p0 <= i < p -> ~ placeholder_at t i n) ->
  placeholders_from t p0 l.
Proof.
  intros H Hp Hgap. inversion H as [pos Hnone | pos i n rest Hle Hat Hleast Hrest]; subst.
  - apply no_more. intros i n Hi. destruct (Nat.lt_ge_cases i p); [apply Hgap | apply Hnone]; lia.
  - apply next_placeholder; auto; try lia.
    intros i' n' Hi'. destruct (Nat.lt_ge_cases i' p); [apply Hgap | apply Hleast]; lia.
Qed.

Lemma placeholder_at_head t i n :
  placeholder_at t i n -> exists r, skipn i t = LBRACKET :: r.
Proof. intros (rest & Hs & _). eauto. Qed.

(** No placeholder starts where the text has no ['[']. *)
Lemma no_placeholder_without_open t u p i n :
  ~ In LBRACKET (skipn p t) -> p <= i < length t -> ~ placeholder_at (t ++ u) i n.
Proof.
  intros Hclean Hi Hat. destruct (placeholder_at_head _ _ _ Hat) as [r Hr].
  rewrite skipn_app_le in Hr by lia. apply Hclean.
  apply (In_skipn _ (i - p)). rewrite skipn_skipn.
  replace (i - p + p) with i by lia.
  destruct (skipn i t) as [|c s'] eqn:Es.
  - apply (f_equal (@length ascii)) in Es. rewrite length_skipn in Es. simpl in Es. lia.
  - simpl in Hr. inversion Hr; subst. now left.
Qed.

(** ** Inserting a placeholder at the end of the text *)

Lemma insert_at_end t n :
  n <> [] -> ~ In RBRACKET n ->
  forall pos l,
    placeholders_from t pos l ->
    pos <= length t ->
    ~ In LBRACKET (skipn (last_end pos l) t) ->
    placeholders_from (t ++ " "%char :: LBRACKET :: n ++ [RBRACKET]) pos
      (l ++ [mkParsed n (length t + 1) (length t + 1 + length n + 2)]).
Proof.
  intros Hne Hfree pos l H.
  induction H as [pos Hnone | pos i n0 rest Hle Hat Hleast Hrest IH]; intros Hpos Hclean.
  - simpl in Hclean. simpl. apply next_placeholder.
    + lia.
    + exists []. split; [|auto].
      rewrite skipn_app, skipn_all2 by lia.
      replace (length t + 1 - length t) with 1 by lia. reflexivity.
    + intros i' n' Hi' Hat'. destruct (Nat.lt_ge_cases i' (length t)).
      * eapply no_placeholder_without_open in Hat'; eauto. lia.
      * replace i' with (length t) in Hat' by lia.
        destruct (placeholder_at_head _ _ _ Hat') as [r Hr].
        rewrite skipn_app, skipn_all, Nat.sub_diag in Hr. simpl in Hr. discriminate Hr.
    + apply no_more. intros i' n' Hi' Hat'. apply placeholder_at_bound in Hat'.
      rewrite length_app in Hat'. simpl in Hat'. rewrite length_app in Hat'. simpl in Hat'. lia.
  - pose proof (placeholder_at_bound _ _ _ Hat) as Hb.
    simpl. apply next_placeholder; auto.
    + now apply placeholder_at_app.
    + intros i' n' Hi' Hat'. apply (Hleast i' n' Hi').
      eapply placeholder_at_app_inv; eauto; [lia|].
      eapply placeholder_at_has_close; eauto. lia.
Qed.

(** X13.  With a result on display, [handleInsertVariable] leaves a result
    whose text [optimized] is the old text followed by [" [name]"], for
    every name; the other fields of the result, the listed variables and
    the dialog are kept; without a result it does nothing.  When the name
    is non-empty and has no ["]"], and the text has no ["["] after its last
    placeholder, the parser then reports the old occurrences unchanged
    followed by the new one at the end; replacing that occurrence by [v]
    gives the old text, a space and [v]; and clicking it and confirming
    with an existing variable leaves that text, with the variable's value,
    on display. *)
Theorem handleInsertVariable_appends_occurrence :
  forall name0 st,
    (Popup.optimizationResult st = None -> Popup.handleInsertVariable name0 st = st) /\
    (forall r,
        Popup.optimizationResult st = Some r ->
        let t := Popup.optimized r in
        let t' := t ++ str " [" ++ name0 ++ str "]" in
        let st1 := Popup.handleInsertVariable name0 st in
        (exists r1,
            Popup.optimizationResult st1 = Some r1 /\
            Popup.optimized r1 = t' /\
            Popup.original r1 = Popup.original r /\
            Popup.techniques_used r1 = Popup.techniques_used r) /\
        Popup.userVariables st1 = Popup.userVariables st /\
        Popup.variableReplaceDialog st1 = Popup.variableReplaceDialog st /\
        (name0 <> [] ->
         ~ In RBRACKET name0 ->
         ~ In LBRACKET (skipn (last_end 0 (parseVariablesFromText t)) t) ->
         let inserted := mkParsed name0 (length t + 1) (length t + length name0 + 3) in
         parseVariablesFromText t' = parseVariablesFromText t ++ [inserted] /\
         (forall v,
             Popup.replaceAt t' (Popup.mkPosition (start inserted) (end_ inserted)) v
             = t ++ str " " ++ v) /\
         (forall uuid now sv b,
             exists st2 r2,
               Popup.handleReplaceVariable uuid now true (Some sv)
                 (Popup.handleVariableClick name0 (start inserted) (end_ inserted) st1) b
               = (Storage.Ok st2, b) /\
               Popup.optimizationResult st2 = Some r2 /\
               Popup.optimized r2 = t ++ str " " ++ Storage.value sv))).
Proof.
  intros name0 st. split.
  - intros Hr. unfold Popup.handleInsertVariable. now rewrite Hr.
  - intros r Hr t t' st1.
    assert (Hst1 : st1 = Popup.mkAppState (Some (Popup.with_optimized r t'))
                           (Popup.userVariables st) (Popup.variableReplaceDialog st))
      by (subst st1; unfold Popup.handleInsertVariable; now rewrite Hr).
    assert (Hrep : forall v,
               Popup.replaceAt t' (Popup.mkPosition (length t + 1) (length t + length name0 + 3)) v
               = t ++ str " " ++ v).
    { intros v. rewrite replaceAt_slice. subst t'. cbn [Popup.start Popup.end_].
      unfold slice, slice_from. rewrite Nat.sub_0_r. cbn [skipn].
      rewrite firstn_app, firstn_all2 by lia.
      replace (length t + 1 - length t) with 1 by lia.
      rewrite skipn_all2.
      * simpl. rewrite app_nil_r, <- app_assoc. reflexivity.
      * rewrite length_app. simpl. rewrite length_app. simpl. lia. }
    split; [|split; [|split]].
    + rewrite Hst1. eexists. split; [reflexivity|]. repeat split.
    + now rewrite Hst1.
    + now rewrite Hst1.
    + intros Hne Hfree Hclean inserted. split; [|split].
      * pose proof (insert_at_end t name0 Hne Hfree 0 _ (parseVariablesFromText_spec t)
                      (Nat.le_0_l _) Hclean) as H.
        subst inserted t'.
        replace (length t + length name0 + 3) with (length t + 1 + length name0 + 2) by lia.
        eapply placeholders_from_unique; [apply parseVariablesFromText_spec | exact H].
      * intros v. subst inserted. cbn [start end_]. apply Hrep.
      * intros uuid now sv b. rewrite Hst1. subst inserted. cbn [start end_].
        unfold Popup.handleReplaceVariable, Popup.handleVariableClick.
        cbn [Popup.optimizationResult Popup.variableReplaceDialog Popup.position
             Popup.userVariables Popup.variableName].
        unfold Storage.bind, Storage.ret. cbn [fst snd].
        do 2 eexists. split; [reflexivity|]. split; [reflexivity|].
        cbn [Popup.with_optimized Popup.optimized]. apply Hrep.
Qed.

Lemma handleInsertVariable_appends_occurrence_witness :
  parseVariablesFromText (str "Hi [NAME]" ++ str " [" ++ str "CITY" ++ str "]")
  = [mkParsed (str "NAME") 3 9; mkParsed (str "CITY") 10 16].
Proof.
  apply (proj2 (proj2 (proj2
           (proj2 (handleInsertVariable_appends_occurrence (str "CITY")
                     (Popup.mkAppState
                        (Some (Popup.mkOptimizationResult [] (str "Hi [NAME]") []))
                        [] Popup.closedDialog))
              (Popup.mkOptimizationResult [] (str "Hi [NAME]") []) eq_refl)))).
  - discriminate.
  - simpl. intuition discriminate.
  - simpl. tauto.
Defined.

(** ** Parsing again after a replacement *)

Lemma bracket_pattern_none_close s' :
  bracket_pattern (LBRACKET :: s') = None -> In RBRACKET s' ->
  exists r, s' = RBRACKET :: r.
Proof.
  intros E Hin. unfold bracket_pattern in E. rewrite Ascii.eqb_refl in E. cbv zeta in E.
  destruct (run_except_rest_in _ _ Hin) as [r Hr]. rewrite Hr in E.
  destruct (run_except RBRACKET s') as [|c run] eqn:Erun.
  - simpl in Hr. eauto.
  - simpl in E. discriminate E.
Qed.

Lemma no_placeholder_at_empty_name t i r n :
  skipn i t = LBRACKET :: RBRACKET :: r -> ~ placeholder_at t i n.
Proof.
  intros Hs (rest & Hs' & Hne & Hfree). rewrite Hs in Hs'.
  destruct n as [|c n]; [congruence|]. simpl in Hs'. inversion Hs'; subst.
  apply Hfree. now left.
Qed.

Lemma placeholder_at_prefix t i n s :
  placeholder_at t i n -> i + length n + 2 <= s -> placeholder_at (firstn s t) i n.
Proof.
  intros (rest & Hs & Hne & Hfree) Hle.
  exists (firstn (s - i - (length n + 2)) rest). repeat split; auto.
  rewrite skipn_firstn_comm, Hs.
  replace (LBRACKET :: n ++ RBRACKET :: rest)
    with ((LBRACKET :: n ++ [RBRACKET]) ++ rest) by (simpl; now rewrite <- app_assoc).
  assert (Hlen : length (LBRACKET :: n ++ [RBRACKET]) = length n + 2)
    by (simpl; rewrite length_app; simpl; lia).
  rewrite firstn_app, Hlen.
  rewrite (firstn_all2 (LBRACKET :: n ++ [RBRACKET])) by lia.
  simpl. now rewrite <- app_assoc.
Qed.

Lemma in_sequence_middle A : forall lo sel B,
  in_sequence lo (A ++ sel :: B) -> lo <= start sel.
Proof.
  induction A as [|a A IH]; simpl; intros lo sel B H.
  - tauto.
  - destruct H as (H1 & H2 & H3). apply IH in H3. lia.
Qed.

Section Reparse.

Variables (t v : jsstring) (n : jsstring) (s : nat).
Hypothesis v_open : ~ In LBRACKET v.
Hypothesis sel_at : placeholder_at t s n.

Let e := s + length n + 2.
Let t' := firstn s t ++ v ++ skipn e t.

Lemma reparse_suffix : skipn e t = skipn (s + length v) t'.
Proof.
  pose proof (placeholder_at_bound _ _ _ sel_at) as Hb.
  assert (Hlen : length (firstn s t ++ v) = s + length v)
    by (rewrite length_app, length_firstn; lia).
  subst t'. rewrite app_assoc, skipn_app, Hlen, Nat.sub_diag.
  rewrite (skipn_all2 (firstn s t ++ v)) by lia. reflexivity.
Qed.

(** Before the replaced span, a position that was not the start of a
    placeholder is not one afterwards. *)
Lemma reparse_gap i :
  i < s -> (forall m, ~ placeholder_at t i m) -> forall m, ~ placeholder_at t' i m.
Proof.
  intros Hi Hnone m Hat'.
  pose proof (placeholder_at_bound _ _ _ sel_at) as Hb.
  destruct (placeholder_at_head _ _ _ Hat') as [r' Hr'].
  assert (Hcut : skipn i t' = firstn (s - i) (skipn i t) ++ v ++ skipn e t).
  { subst t'. rewrite skipn_app_le by (rewrite length_firstn; lia).
    now rewrite skipn_firstn_comm. }
  destruct (skipn i t) as [|c s'] eqn:Es.
  { apply (f_equal (@length ascii)) in Es. rewrite length_skipn in Es. simpl in Es. lia. }
  assert (Hs' : skipn (S i) t = s').
  { replace (S i) with (1 + i) by lia. rewrite <- skipn_skipn, Es. reflexivity. }
  rewrite Hcut in Hr'. destruct (s - i) as [|k] eqn:Ek; [lia|].
  simpl in Hr'. inversion Hr'; subst c.
  apply placeholder_at_none in Hnone. rewrite Es in Hnone.
  assert (Hin : In RBRACKET s').
  { rewrite <- Hs'. eapply placeholder_at_has_close; eauto. }
  destruct (bracket_pattern_none_close _ Hnone Hin) as [r ->].
  destruct k as [|k].
  - destruct sel_at as (rest & Hsel & _).
    replace s with (S i) in Hsel by lia. rewrite Hs' in Hsel. discriminate Hsel.
  - eapply no_placeholder_at_empty_name; [|exact Hat'].
    rewrite Hcut. reflexivity.
Qed.

(** No placeholder starts before or inside the replacement value, from the
    end of the occurrences that precede the replaced one. *)
Lemma reparse_least pos :
  (forall i m, pos <= i < s -> ~ placeholder_at t i m) ->
  forall i m, pos <= i < s + length v -> ~ placeholder_at t' i m.
Proof.
  intros Hleast i m Hi.
  pose proof (placeholder_at_bound _ _ _ sel_at) as Hb.
  destruct (Nat.lt_ge_cases i s) as [Hlt | Hge].
  - apply reparse_gap; auto. intros m'. apply Hleast. lia.
  - intros Hat'. destruct (placeholder_at_head _ _ _ Hat') as [r Hr].
    subst t'. rewrite skipn_app, skipn_all2 in Hr by (rewrite length_firstn; lia).
    rewrite length_firstn in Hr. replace (i - Nat.min s (length t)) with (i - s) in Hr by lia.
    simpl in Hr. rewrite skipn_app_le in Hr by lia.
    apply v_open. apply (In_skipn _ (i - s)).
    destruct (skipn (i - s) v) as [|c w] eqn:Ev.
    + apply (f_equal (@length ascii)) in Ev. rewrite length_skipn in Ev. simpl in Ev. lia.
    + simpl in Hr. inversion Hr; subst. now left.
Qed.

Lemma reparse_from : forall A pos B,
  placeholders_from t pos (A ++ mkParsed n s e :: B) ->
  placeholders_from t' pos (A ++ map (moved e (s + length v)) B).
Proof.
  pose proof (placeholder_at_bound _ _ _ sel_at) as Hb.
  induction A as [|a A IH]; intros pos B H; simpl in *.
  - inversion H as [|pos0 i n0 rest Hle Hat Hleast Hrest]; subst.
    pose proof (placeholders_from_suffix t t' e (s + length v) reparse_suffix
                  _ _ Hrest (Nat.le_refl _)) as Hmoved.
    rewrite Nat.sub_diag in Hmoved. simpl in Hmoved.
    eapply placeholders_from_earlier; [exact Hmoved | lia |].
    apply reparse_least. exact Hleast.
  - inversion H as [|pos0 i n0 rest Hle Hat Hleast Hrest Hpos Hhead]; subst.
    destruct (placeholders_from_ok _ _ _ Hrest) as [_ Hseq].
    apply in_sequence_middle in Hseq. simpl in Hseq.
    assert (HatP : placeholder_at (firstn s t) i n0)
      by (apply placeholder_at_prefix; auto).
    apply next_placeholder; auto.
    + subst t'. now apply placeholder_at_app.
    + intros i' m Hi' Hat'. apply (Hleast i' m Hi').
      rewrite <- (firstn_skipn s t). apply placeholder_at_app.
      subst t'. eapply placeholder_at_app_inv; [| |exact Hat'].
      * rewrite length_firstn. lia.
      * eapply placeholder_at_has_close; eauto. lia.
Qed.

End Reparse.

(** X14.  After the selected occurrence is replaced by a value without
    brackets, parsing the new text reports exactly the other occurrences:
    those before the span as they were, those after it with their offsets
    moved by the difference of the lengths. *)
Theorem replaceAt_then_parse :
  forall t A sel B v,
    parseVariablesFromText t = A ++ sel :: B ->
    ~ In LBRACKET v ->
    parseVariablesFromText
      (Popup.replaceAt t (Popup.mkPosition (start sel) (end_ sel)) v)
    = A ++ map (moved (end_ sel) (start sel + length v)) B.
Proof.
  intros t A sel B v Hparse Hopen.
  pose proof (parseVariablesFromText_spec t) as Hspec. rewrite Hparse in Hspec.
  destruct (placeholders_from_ok _ _ _ Hspec) as [Hok _].
  apply Forall_app in Hok. destruct Hok as [_ Hok]. inversion Hok as [|? ? Hsel _]; subst.
  destruct Hsel as (Hend & Hslice & Hne & Hfree & Hbound).
  assert (Hat : placeholder_at t (start sel) (Parser.name sel)).
  { exists (skipn (end_ sel) t). repeat split; auto.
    rewrite <- (firstn_skipn (end_ sel - start sel) (skipn (start sel) t)) at 1.
    unfold slice in Hslice. rewrite Hslice, skipn_skipn.
    replace (end_ sel - start sel + start sel) with (end_ sel) by lia.
    simpl. now rewrite <- app_assoc. }
  destruct sel as [n s e]. simpl in *. subst e.
  rewrite replaceAt_slice. cbn [Popup.start Popup.end_].
  unfold slice, slice_from. rewrite Nat.sub_0_r. cbn [skipn].
  eapply placeholders_from_unique; [apply parseVariablesFromText_spec|].
  apply (reparse_from t v n s Hopen Hat A 0 B Hspec).
Qed.

Lemma replaceAt_then_parse_witness :
  parseVariablesFromText
    (Popup.replaceAt (str "Hi [NAME] and [NAME] again") (Popup.mkPosition 3 9) (str "Bob"))
  = [mkParsed (str "NAME") 11 17].
Proof.
  apply (replaceAt_then_parse (str "Hi [NAME] and [NAME] again") []
           (mkParsed (str "NAME") 3 9) [mkParsed (str "NAME") 14 20] (str "Bob")).
  - reflexivity.
  - simpl. intuition discriminate.
Defined.

(** ** The mustache occurrences of [PromptWithVariables] *)

Lemma variable_pattern_shape s m0 m1 :
  Preview.variable_pattern s = Some (m0, m1) ->
  m0 = Preview.LBRACE :: Preview.LBRACE :: m1 ++ [Preview.RBRACE; Preview.RBRACE] /\
  m1 <> [] /\ ~ In Preview.RBRACE m1 /\
  exists rest, s = m0 ++ rest.
Proof.
  unfold Preview.variable_pattern.
  destruct s as [|c1 [|c2 s']]; try discriminate.
  destruct (Ascii.eqb_spec c1 Preview.LBRACE) as [-> |]; [|discriminate].
  destruct (Ascii.eqb_spec c2 Preview.LBRACE) as [-> |]; [|discriminate].
  cbn [andb]. cbv zeta.
  pose proof (run_except_split Preview.RBRACE s') as Hs.
  pose proof (run_except_free Preview.RBRACE s') as Hf.
  destruct (run_except Preview.RBRACE s') as [|r run] eqn:Er; [discriminate|].
  cbn [truthy].
  destruct (skipn (length (r :: run)) s') as [|d1 [|d2 rest]]; try discriminate.
  destruct (Ascii.eqb_spec d1 Preview.RBRACE) as [-> |]; [|discriminate].
  destruct (Ascii.eqb_spec d2 Preview.RBRACE) as [-> |]; [|discriminate].
  cbn [andb]. intros H; inversion H; subst; clear H.
  repeat split; auto; try discriminate.
  exists rest. simpl. rewrite <- app_assoc. reflexivity.
Qed.

Lemma exec_variable_some value lastIndex m :
  exec Preview.variable_pattern value lastIndex = Some m ->
  lastIndex <= index m /\
  match0 m = Preview.LBRACE :: Preview.LBRACE :: match1 m ++ [Preview.RBRACE; Preview.RBRACE] /\
  match1 m <> [] /\ ~ In Preview.RBRACE (match1 m) /\
  slice value (index m) (index m + length (match0 m)) = match0 m /\
  index m + length (match0 m) <= length value.
Proof.
  intros E. apply exec_some in E. destruct E as (Hi & Hp & _).
  apply variable_pattern_shape in Hp. destruct Hp as (Hm0 & Hne & Hfree & rest & Hs).
  repeat split; auto; try lia.
  - unfold slice. rewrite Hs. replace (index m + length (match0 m) - index m)
      with (length (match0 m) + 0) by lia.
    rewrite firstn_app_2. simpl. apply app_nil_r.
  - apply (f_equal (@length ascii)) in Hs. rewrite length_skipn, length_app in Hs. lia.
Qed.

Lemma parse_body_cases variables m matches :
  Mustache.parse_body variables m matches = matches \/
  exists o, Mustache.parse_body variables m matches = matches ++ [o] /\
    Mustache.name o = Preview.trim (match1 m) /\ Mustache.name o <> [] /\
    Mustache.startIndex o = index m /\
    Mustache.endIndex o = index m + length (match0 m) /\
    Mustache.variable o
      = find (fun v => jsstring_eqb (Preview.name v) (Mustache.name o)) variables /\
    Mustache.isValid o
      = match Mustache.variable o with Some _ => true | None => false end.
Proof.
  unfold Mustache.parse_body. cbv zeta.
  destruct (Preview.trim (match1 m)) as [|c r] eqn:E; [now left|].
  right. eexists. split; [reflexivity|]. simpl. repeat split. discriminate.
Qed.

(** What the loop appends to [matches]. *)
Lemma mustache_loop_sound variables fuel : forall value lastIndex matches out,
  Mustache.parse_loop fuel value variables lastIndex matches = Some out ->
  exists found,
    out = matches ++ found /\
    Forall (Mustache.reported value) found /\
    Mustache.in_order lastIndex found /\
    Forall (fun o =>
              Mustache.variable o
                = find (fun v => jsstring_eqb (Preview.name v) (Mustache.name o)) variables /\
              Mustache.isValid o
                = match Mustache.variable o with Some _ => true | None => false end) found.
Proof.
  induction fuel as [|fuel IH]; intros value lastIndex matches out H; simpl in H.
  - discriminate.
  - destruct (exec Preview.variable_pattern value lastIndex) as [m|] eqn:E.
    + pose proof (exec_variable_some _ _ _ E) as (Hle & Hm0 & Hne & Hfree & Hslice & Hbound).
      assert (Hlen : length (match0 m) = length (match1 m) + 4).
      { rewrite Hm0. simpl. rewrite length_app. simpl. lia. }
      apply IH in H. destruct H as (found & -> & Hrep & Hord & Hvar).
      unfold lastIndex_after in Hord.
      destruct (parse_body_cases variables m matches)
        as [-> | (o & -> & Hname & Hnon & Hstart & Hend & Hv & Hvalid)].
      * exists found. repeat split; auto.
        destruct found as [|o found]; simpl in *; [exact I|]. intuition lia.
      * exists (o :: found). rewrite <- app_assoc.
        split; [reflexivity|]. split; [|split].
        -- constructor; auto. exists (match1 m). rewrite Hstart, Hend, Hslice.
           split; [exact Hm0|]. split; [lia|]. split; [lia|]. auto.
        -- simpl. rewrite Hstart, Hend. repeat split; auto; lia.
        -- constructor; auto.
    + inversion H; subst. exists []. rewrite app_nil_r. repeat split; auto; constructor.
Qed.

Lemma mustache_loop_fuel variables fuel : forall value lastIndex matches,
  0 < fuel -> length value < lastIndex + fuel ->
  exists out, Mustache.parse_loop fuel value variables lastIndex matches = Some out.
Proof.
  induction fuel as [|fuel IH]; intros value lastIndex matches Hpos Hfuel; [lia|].
  simpl. destruct (exec Preview.variable_pattern value lastIndex) as [m|] eqn:E; [|eauto].
  pose proof (exec_variable_some _ _ _ E) as (Hle & Hm0 & _ & _ & _ & Hbound).
  assert (0 < length (match0 m)) by (rewrite Hm0; simpl; lia).
  unfold lastIndex_after. apply IH; lia.
Qed.

Lemma parseEffect_run_eq value variables :
  Mustache.parseEffect_run value variables = Some (Mustache.parseEffect value variables).
Proof.
  unfold Mustache.parseEffect.
  destruct (mustache_loop_fuel variables (S (length value)) value 0 []) as [out Hout];
    try lia.
  unfold Mustache.parseEffect_run. now rewrite Hout.
Qed.

(** *** [trim] *)

Lemma trimStart_head s c r :
  Preview.trimStart s = c :: r -> Preview.is_white_space c = false.
Proof.
  induction s as [|d s IH]; simpl; [discriminate|].
  destruct (Preview.is_white_space d) eqn:E; [exact IH|].
  intros H; inversion H; subst. exact E.
Qed.

Lemma trimStart_fixed s :
  (forall c r, s = c :: r -> Preview.is_white_space c = false) -> Preview.trimStart s = s.
Proof.
  destruct s as [|c r]; simpl; intros H; [reflexivity|].
  now rewrite (H c r eq_refl).
Qed.

Lemma trimStart_idempotent s : Preview.trimStart (Preview.trimStart s) = Preview.trimStart s.
Proof.
  apply trimStart_fixed. intros c r H. eapply trimStart_head; eauto.
Qed.

Lemma trimStart_suffix s : exists w, s = w ++ Preview.trimStart s.
Proof.
  induction s as [|c s [w IH]]; simpl.
  - exists []. reflexivity.
  - destruct (Preview.is_white_space c).
    + exists (c :: w). simpl. now f_equal.
    + exists []. reflexivity.
Qed.

(** A trimmed text has no white space at either end: trimming it again
    changes nothing. *)
Lemma trim_idempotent s : Preview.trim (Preview.trim s) = Preview.trim s.
Proof.
  unfold Preview.trim, Preview.trimEnd.
  set (a := Preview.trimStart s).
  set (c := Preview.trimStart (rev a)).
  assert (Hfix : Preview.trimStart (rev c) = rev c).
  { apply trimStart_fixed. intros x r Hx.
    destruct (trimStart_suffix (rev a)) as [w Hw]. fold c in Hw.
    apply (f_equal (@rev ascii)) in Hw. rewrite rev_involutive, rev_app_distr, Hx in Hw.
    simpl in Hw. subst a. eapply trimStart_head; eauto. }
  rewrite Hfix, rev_involutive. subst c. now rewrite trimStart_idempotent.
Qed.

(** X15.  Every occurrence the parsing effect reports covers a span of the
    text that reads ["{{"], a text without ["}"], ["}}"]; its name is that
    text trimmed, is not empty and has no white space at its ends; and the
    occurrences come in increasing, non-overlapping order. *)
Theorem parseEffect_occurrences :
  forall value variables,
    Forall (fun o => Mustache.reported value o /\
                     Preview.trim (Mustache.name o) = Mustache.name o)
           (Mustache.parseEffect value variables) /\
    Mustache.in_order 0 (Mustache.parseEffect value variables).
Proof.
  intros value variables.
  pose proof (parseEffect_run_eq value variables) as H.
  apply mustache_loop_sound in H. destruct H as (found & -> & Hrep & Hord & _).
  simpl. split; [|exact Hord].
  eapply Forall_impl; [|exact Hrep]. intros o Ho. split; [exact Ho|].
  destruct Ho as (raw & _ & _ & _ & _ & -> & _). apply trim_idempotent.
Qed.

(** X16.  An occurrence is valid exactly when some variable has its name;
    it then carries the first such variable.  The used variables are
    variables of the list named by an occurrence, the invalid occurrences
    are named by no variable, and every occurrence is in one of the two
    groups. *)
Theorem parseEffect_validity :
  forall value variables,
    let parsed := Mustache.parseEffect value variables in
    Forall (fun o =>
              (Mustache.isValid o = true <->
               exists v, In v variables /\ Preview.name v = Mustache.name o) /\
              Mustache.variable o
                = find (fun v => jsstring_eqb (Preview.name v) (Mustache.name o)) variables)
           parsed /\
    Forall (fun u => exists v, u = Some v /\ In v variables /\
                               In (Preview.name v) (map Mustache.name parsed))
           (Mustache.usedVariables parsed) /\
    Forall (fun o => forall v, In v variables -> Preview.name v <> Mustache.name o)
           (Mustache.invalidVariables parsed) /\
    length (Mustache.usedVariables parsed) + length (Mustache.invalidVariables parsed)
      = length parsed.
Proof.
  intros value variables parsed.
  pose proof (parseEffect_run_eq value variables) as H. fold parsed in H.
  apply mustache_loop_sound in H. destruct H as (found & Hout & _ & _ & Hvar).
  simpl in Hout. rewrite <- Hout in Hvar. clear Hout found.
  assert (Hall : Forall (fun o =>
              (Mustache.isValid o = true <->
               exists v, In v variables /\ Preview.name v = Mustache.name o) /\
              Mustache.variable o
                = find (fun v => jsstring_eqb (Preview.name v) (Mustache.name o)) variables)
           parsed).
  { eapply Forall_impl; [|exact Hvar]. intros o [Hv Hvalid]. split; [|exact Hv].
    rewrite Hvalid, Hv.
    destruct (find (fun v => jsstring_eqb (Preview.name v) (Mustache.name o)) variables)
      as [v|] eqn:Ef.
    - apply find_some in Ef. destruct Ef as [Hin Hn]. apply jsstring_eqb_eq in Hn.
      split; eauto.
    - split; [discriminate|]. intros (v & Hin & Hn).
      apply (find_none _ _ Ef) in Hin. apply jsstring_eqb_neq in Hin. congruence. }
  split; [exact Hall|]. rewrite Forall_forall in Hall.
  repeat split.
  - apply Forall_forall. intros u Hu. unfold Mustache.usedVariables in Hu.
    apply in_map_iff in Hu. destruct Hu as (o & <- & Ho). apply filter_In in Ho.
    destruct Ho as [Ho Hval]. destruct (Hall o Ho) as [Hiff Hv].
    rewrite Hv.
    destruct (find (fun v => jsstring_eqb (Preview.name v) (Mustache.name o)) variables)
      as [v|] eqn:Ef.
    + apply find_some in Ef. destruct Ef as [Hin Hn]. apply jsstring_eqb_eq in Hn.
      exists v. repeat split; auto. rewrite Hn. now apply in_map.
    + apply Hiff in Hval. destruct Hval as (v & Hin & Hn).
      apply (find_none _ _ Ef) in Hin. apply jsstring_eqb_neq in Hin. congruence.
  - apply Forall_forall. intros o Ho. unfold Mustache.invalidVariables in Ho.
    apply filter_In in Ho. destruct Ho as [Ho Hval]. apply negb_true_iff in Hval.
    intros v Hin Hn. destruct (Hall o Ho) as [Hiff _].
    assert (Mustache.isValid o = true) by (apply Hiff; eauto). congruence.
  - unfold Mustache.usedVariables, Mustache.invalidVariables. rewrite length_map.
    clear. induction parsed as [|o l IH]; simpl; [reflexivity|].
    destruct (Mustache.isValid o); simpl; lia.
Qed.

(** ** The preview when nothing can be substituted *)

Lemma mustache_loop_extends variables fuel value lastIndex matches out :
  Mustache.parse_loop fuel value variables lastIndex matches = Some out ->
  exists found, out = matches ++ found.
Proof.
  intros H. apply mustache_loop_sound in H. destruct H as (found & -> & _). eauto.
Qed.

Lemma preview_loop_identity variables fuel : forall value lastIndex matches out preview,
  Mustache.parse_loop fuel value variables lastIndex matches = Some out ->
  Forall (fun o => forall x, Mustache.variable o = Some x -> Mustache.no_default x) out ->
  Preview.preview_loop fuel value variables lastIndex preview = Some preview.
Proof.
  induction fuel as [|fuel IH]; intros value lastIndex matches out preview H Hq; simpl in *.
  - discriminate.
  - destruct (exec Preview.variable_pattern value lastIndex) as [m|] eqn:E; [|reflexivity].
    assert (Hbody : Preview.preview_body variables m preview = preview).
    { destruct (mustache_loop_extends _ _ _ _ _ _ H) as [found ->].
      unfold Preview.preview_body, Mustache.parse_body in *. cbv zeta in *.
      destruct (Preview.trim (match1 m)) as [|c r] eqn:Et; [reflexivity|].
      cbn [truthy negb] in *.
      destruct (find (fun v => jsstring_eqb (Preview.name v) (c :: r)) variables)
        as [x|] eqn:Ef; [|reflexivity].
      rewrite Forall_forall in Hq.
      assert (Hx : Mustache.no_default x).
      { eapply Hq;
          [apply in_or_app; left; apply in_or_app; right; left; reflexivity | reflexivity]. }
      destruct Hx as [-> | ->]; reflexivity. }
    rewrite Hbody. eapply IH; eauto.
Qed.

(** X17.  When no reported occurrence is resolved to a variable with a
    non-empty default value, in particular when there are no variables, the
    preview is the text itself. *)
Theorem generatePreview_without_defaults :
  forall value variables,
    Forall (fun o => forall x, Mustache.variable o = Some x -> Mustache.no_default x)
           (Mustache.parseEffect value variables) ->
    Preview.generatePreview_run value variables = Some value /\
    Preview.generatePreview value variables = value.
Proof.
  intros value variables Hq.
  pose proof (parseEffect_run_eq value variables) as H.
  assert (Hrun : Preview.generatePreview_run value variables = Some value)
    by (eapply preview_loop_identity; eauto).
  split; [exact Hrun|]. unfold Preview.generatePreview. now rewrite Hrun.
Qed.

Lemma generatePreview_without_defaults_witness :
  Preview.generatePreview (str "Hi {{name}} and {{ city }}") [] = str "Hi {{name}} and {{ city }}".
Proof.
  apply (generatePreview_without_defaults (str "Hi {{name}} and {{ city }}") []).
  vm_compute.
  constructor; [intros x H; discriminate H|].
  constructor; [intros x H; discriminate H|].
  constructor.
Defined.

(** ** The generated variable name *)

Import VariableCreator.

Lemma toLowerCase_unit_word c :
  is_word c = true -> is_name_unit (toLowerCase_unit c) = true.
Proof.
  destruct c as [[] [] [] [] [] [] [] []]; intros H; try discriminate H; reflexivity.
Qed.

Lemma name_unit_not_space c :
  is_name_unit c = true -> Preview.is_white_space c = false /\ c <> Preview.RBRACE.
Proof.
  destruct c as [[] [] [] [] [] [] [] []]; intros H; try discriminate H;
    (split; [reflexivity | discriminate]).
Qed.

Lemma trimStart_Forall (P : ascii -> Prop) s : Forall P s -> Forall P (Preview.trimStart s).
Proof.
  induction 1 as [|c s Hc Hs IH]; simpl; [constructor|].
  destruct (Preview.is_white_space c); auto.
Qed.

Lemma trim_Forall (P : ascii -> Prop) s : Forall P s -> Forall P (Preview.trim s).
Proof.
  intros H. unfold Preview.trim, Preview.trimEnd.
  apply Forall_rev, trimStart_Forall, Forall_rev, trimStart_Forall, H.
Qed.

Lemma split_ws_words s : forall cur in_sep,
  Forall (fun c => is_word c || Preview.is_white_space c = true) s ->
  Forall (fun c => is_word c = true) cur ->
  Forall (Forall (fun c => is_word c = true)) (split_ws s cur in_sep).
Proof.
  induction s as [|c s IH]; simpl; intros cur in_sep Hs Hcur.
  - constructor; [exact Hcur | constructor].
  - inversion Hs as [|? ? Hc Hs']; subst.
    destruct (Preview.is_white_space c) eqn:Ew.
    + destruct in_sep; [now apply IH|].
      constructor; [exact Hcur | apply IH; auto].
    + apply IH; auto. apply Forall_app. split; [exact Hcur|].
      constructor; [|constructor]. now rewrite orb_false_r in Hc.
Qed.

Lemma join_Forall (P : ascii -> Prop) sep l :
  Forall P sep -> Forall (Forall P) l -> Forall P (join sep l).
Proof.
  intros Hsep. induction 1 as [|x l Hx Hl IH]; simpl; [constructor|].
  destruct l as [|y l]; [exact Hx|].
  apply Forall_app. split; [exact Hx|]. apply Forall_app. split; [exact Hsep | exact IH].
Qed.

Lemma firstn_Forall {A} (P : A -> Prop) k : forall l, Forall P l -> Forall P (firstn k l).
Proof.
  induction k as [|k IH]; intros l H; simpl; [constructor|].
  destruct H; constructor; auto.
Qed.

Lemma generateVariableName_units selectedText :
  Forall (fun c => is_name_unit c = true) (generateVariableName selectedText).
Proof.
  unfold generateVariableName. cbv zeta.
  match goal with |- context [truthy ?x] => set (cleanText := x) end.
  assert (H : Forall (fun c => is_name_unit c = true) cleanText).
  { subst cleanText. unfold toLowerCase. rewrite Forall_map.
    eapply Forall_impl; [intros c Hc; apply toLowerCase_unit_word; exact Hc|].
    apply join_Forall; [repeat constructor|].
    apply firstn_Forall. unfold split. apply split_ws_words; [|constructor].
    apply trim_Forall. unfold removeOthers. apply Forall_forall. intros c Hc.
    apply filter_In in Hc. tauto. }
  destruct (truthy cleanText); [exact H|]. repeat constructor.
Qed.

Lemma variable_pattern_complete raw rest :
  raw <> [] -> ~ In Preview.RBRACE raw ->
  Preview.variable_pattern
    (Preview.LBRACE :: Preview.LBRACE :: raw ++ Preview.RBRACE :: Preview.RBRACE :: rest)
  = Some (Preview.LBRACE :: Preview.LBRACE :: raw ++ [Preview.RBRACE; Preview.RBRACE], raw).
Proof.
  intros Hne Hfree. unfold Preview.variable_pattern.
  change (Ascii.eqb Preview.LBRACE Preview.LBRACE) with true. cbn [andb]. cbv zeta.
  rewrite (run_except_app _ _ (Preview.RBRACE :: rest) Hfree).
  assert (Hk : skipn (length raw) (raw ++ Preview.RBRACE :: Preview.RBRACE :: rest)
               = Preview.RBRACE :: Preview.RBRACE :: rest)
    by (rewrite skipn_app, Nat.sub_diag, skipn_all; reflexivity).
  rewrite Hk. destruct raw; [congruence|]. reflexivity.
Qed.

Lemma exec_at_here (p : Matcher) rest pos m0 m1 :
  p rest = Some (m0, m1) -> exec_at p rest pos = Some (mkMatch pos m0 m1).
Proof. intros H. destruct rest; simpl; now rewrite H. Qed.

Lemma trim_fixed s :
  Forall (fun c => Preview.is_white_space c = false) s -> Preview.trim s = s.
Proof.
  intros H. unfold Preview.trim, Preview.trimEnd.
  assert (Hfix : forall u, Forall (fun c => Preview.is_white_space c = false) u ->
                           Preview.trimStart u = u).
  { intros u Hu. apply trimStart_fixed. intros c r ->. now inversion Hu. }
  rewrite (Hfix s H), (Hfix (rev s)) by now apply Forall_rev.
  apply rev_involutive.
Qed.

(** X18.  Whatever text is selected, the generated name is not empty and is
    made of lower-case letters, digits and underscores only; written as
    ["{{name}}"] it is therefore read back by the parsing effect as one
    occurrence with exactly that name. *)
Theorem generateVariableName_is_a_name :
  forall selectedText variables,
    let name0 := generateVariableName selectedText in
    name0 <> [] /\
    Forall (fun c => is_name_unit c = true) name0 /\
    Mustache.parseEffect (str "{{" ++ name0 ++ str "}}") variables
    = [Mustache.mkParsedVariable name0 0 (length name0 + 4)
         (match find (fun v => jsstring_eqb (Preview.name v) name0) variables with
          | Some _ => true | None => false end)
         (find (fun v => jsstring_eqb (Preview.name v) name0) variables)].
Proof.
  intros selectedText variables name0.
  pose proof (generateVariableName_units selectedText) as Hunits. fold name0 in Hunits.
  assert (Hne : name0 <> []).
  { subst name0. unfold generateVariableName. cbv zeta.
    match goal with |- context [truthy ?x] => destruct x eqn:E end; simpl; discriminate. }
  assert (Hspace : Forall (fun c => Preview.is_white_space c = false) name0).
  { eapply Forall_impl; [|exact Hunits]. intros c Hc. now apply name_unit_not_space. }
  assert (Hfree : ~ In Preview.RBRACE name0).
  { intros Hin. rewrite Forall_forall in Hunits. apply Hunits in Hin. discriminate Hin. }
  repeat split; auto.
  unfold Mustache.parseEffect, Mustache.parseEffect_run.
  change (str "{{" ++ name0 ++ str "}}")
    with (Preview.LBRACE :: Preview.LBRACE :: name0 ++ Preview.RBRACE :: Preview.RBRACE :: []).
  set (text := Preview.LBRACE :: Preview.LBRACE :: name0 ++ Preview.RBRACE :: Preview.RBRACE :: []).
  assert (Hlen : length text = length name0 + 4)
    by (subst text; simpl; rewrite length_app; simpl; lia).
  assert (Hexec : exec Preview.variable_pattern text 0
                  = Some (mkMatch 0 text name0)).
  { unfold exec. change (length text <? 0) with false. cbn [skipn].
    apply exec_at_here. apply (variable_pattern_complete name0 [] Hne Hfree). }
  rewrite Hlen. replace (length name0 + 4) with (S (length name0 + 3)) by lia.
  cbn [Mustache.parse_loop]. rewrite Hexec.
  unfold lastIndex_after. cbn [index match0].
  assert (Hend : exec Preview.variable_pattern text (0 + length text) = None).
  { unfold exec. cbn [Nat.add]. rewrite Nat.ltb_irrefl, skipn_all. reflexivity. }
  rewrite Hend. unfold Mustache.parse_body. cbn [match1 index match0].
  rewrite (trim_fixed name0 Hspace). cbv zeta.
  destruct name0 as [|c r]; [congruence|]. cbn [truthy negb app].
  f_equal. f_equal. lia.
Qed.

(** ** The error handling utility *)

(** X19.  [handleError] returns a [PrompTabError] as it is and logs nothing,
    so handling an error twice, under whatever contexts, is handling it
    once.  Any other value is wrapped with the code ["UNKNOWN_ERROR"], the
    given context (["general"] when it is empty), the message of the error
    or the string itself, and one line is logged. *)
Theorem handleError_wraps_once :
  forall error context0 context1,
    ErrorHandler.handleError
      (ErrorHandler.ThrownPrompTab (fst (ErrorHandler.handleError error context0))) context1
      = (fst (ErrorHandler.handleError error context0), []) /\
    (ErrorHandler.foreign error ->
     let e := fst (ErrorHandler.handleError error context0) in
     ErrorHandler.code e = str "UNKNOWN_ERROR" /\
     ErrorHandler.context e = (if truthy context0 then context0 else str "general") /\
     length (snd (ErrorHandler.handleError error context0)) = 1 /\
     (forall m, error = ErrorHandler.ThrownError m -> ErrorHandler.message e = m) /\
     (forall s, error = ErrorHandler.ThrownString s -> ErrorHandler.message e = s)).
Proof.
  intros error context0 context1. split; [reflexivity|].
  intros Hf. destruct error as [e | m | s | tag]; [contradiction | | |];
    simpl; (repeat split; try (destruct context0; reflexivity);
            intros x Hx; inversion Hx; reflexivity).
Qed.

Lemma handleError_wraps_once_witness :
  ErrorHandler.context
    (fst (ErrorHandler.handleError (ErrorHandler.ThrownError (str "quota")) (str "storage")))
  = str "storage".
Proof.
  exact (proj1 (proj2 (proj2 (handleError_wraps_once
           (ErrorHandler.ThrownError (str "quota")) (str "storage") (str "api")) I))).
Defined.

(** X20.  [withErrorHandling] passes a returned value through without
    logging; with a fallback it never throws and returns the fallback when
    [fn] threw; without one, what it throws is always a [PrompTabError], and
    an error that crosses two wrappers keeps the message and context the
    inner one gave it.  A foreign error thrown through the ["storage"]
    wrapper gets the storage message, whatever the error was. *)
Theorem withErrorHandling_outcomes :
  forall (T : Type) (fn : ErrorHandler.Outcome T) context0 context1,
    (forall v, fn = ErrorHandler.Returned v ->
               forall fallback,
                 ErrorHandler.withErrorHandling fn context0 fallback
                   = (ErrorHandler.Returned v, [])) /\
    (forall fallback error, fn = ErrorHandler.Threw error ->
        fst (ErrorHandler.withErrorHandling fn context0 (Some fallback))
          = ErrorHandler.Returned fallback) /\
    (forall error, fn = ErrorHandler.Threw error ->
        let once := fst (ErrorHandler.withErrorHandling fn context0 None) in
        once = ErrorHandler.Threw
                 (ErrorHandler.ThrownPrompTab (fst (ErrorHandler.handleError error context0))) /\
        ErrorHandler.withErrorHandling once context1 None = (once, []) /\
        (ErrorHandler.foreign error -> context0 = str "storage" ->
         ErrorHandler.getUserFriendlyMessage
           (ErrorHandler.ThrownPrompTab (fst (ErrorHandler.handleError error context0)))
         = str "Unable to save data. Please check your browser settings.")).
Proof.
  intros T fn context0 context1. repeat split.
  - intros v -> fallback. reflexivity.
  - intros fallback error ->. unfold ErrorHandler.withErrorHandling.
    destruct (ErrorHandler.handleError error context0). reflexivity.
  - subst fn. unfold ErrorHandler.withErrorHandling.
    destruct (ErrorHandler.handleError error context0). reflexivity.
  - subst fn. unfold ErrorHandler.withErrorHandling.
    destruct (ErrorHandler.handleError error context0). reflexivity.
  - intros Hf ->. destruct error; [contradiction | | |]; reflexivity.
Qed.

Lemma withErrorHandling_outcomes_witness :
  fst (ErrorHandler.withErrorHandling
         (ErrorHandler.Threw (ErrorHandler.ThrownString (str "boom"))) (str "api") (Some 7))
  = ErrorHandler.Returned 7.
Proof.
  exact (proj1 (proj2 (withErrorHandling_outcomes nat
           (ErrorHandler.Threw (ErrorHandler.ThrownString (str "boom"))) (str "api") (str "api")))
           7 (ErrorHandler.ThrownString (str "boom")) eq_refl).
Defined.

(** ** The variable manager *)

Lemma truthy_nonempty s : s <> [] -> truthy s = true.
Proof. destruct s; [congruence | reflexivity]. Qed.

Lemma save_filled uuid nowDialog nowStore st b :
  VariableManager.filled (VariableManager.createVariableDialog st) ->
  VariableManager.handleSaveVariable uuid nowDialog nowStore st b =
  match VariableManager.save_calls uuid nowDialog nowStore
          (VariableManager.createVariableDialog st) b with
  | (Ok variables, b') =>
      (VariableManager.mkState variables VariableManager.closedDialog
         (VariableManager.error st), b')
  | (Throw _, b') =>
      (VariableManager.mkState (VariableManager.userVariables st)
         (VariableManager.createVariableDialog st)
         (Some (str "Failed to save variable")), b')
  end.
Proof.
  intros [Hn Hv]. unfold VariableManager.handleSaveVariable. cbv zeta.
  now rewrite (truthy_nonempty _ Hn), (truthy_nonempty _ Hv).
Qed.

(** On a working store that holds the id, [updateUserVariable] writes a
    collection with the same ids in which the id finds the updated
    record. *)
Lemma update_present_healthy b now variable :
  healthy b -> In (id variable) (ids (persisted b)) ->
  exists l,
    updateUserVariable now variable b = (Ok (updatedVariable now variable), written b l) /\
    ids l = ids (persisted b) /\
    find (has_id (id variable)) l = Some (updatedVariable now variable).
Proof.
  intros Hb Hin. rewrite updateUserVariable_eq, (visible_healthy b Hb). cbv zeta.
  destruct (findIndex_cases (has_id (id variable)) (persisted b))
    as [[Hall _] | (pre & x & post & Hl & Hpre & Hx & Hi)].
  - exfalso. unfold ids in Hin. apply in_map_iff in Hin. destruct Hin as (v & Hv & Hin).
    apply (proj1 (forallb_not_In _ _) Hall) in Hin.
    apply jsstring_eqb_neq in Hin. congruence.
  - rewrite Hi. destruct (Z.leb_spec 0 (Z.of_nat (length pre))); [|lia].
    rewrite Nat2Z.id, Hl, array_set_middle.
    destruct Hb as (-> & _ & ->). eexists. split; [reflexivity|]. split.
    + unfold ids. rewrite !map_app. simpl. apply jsstring_eqb_eq in Hx. now rewrite Hx.
    + rewrite (find_app_miss _ _ _ Hpre). simpl.
      unfold has_id at 1. cbn [id updatedVariable]. now rewrite jsstring_eqb_refl.
Qed.

Lemma update_rejected b now variable e :
  storage_local_present b = true -> set_rejects b = Some e ->
  In (id variable) (ids (visible b)) ->
  updateUserVariable now variable b = (Throw e, b).
Proof.
  intros Hp Hs Hin. rewrite updateUserVariable_eq. cbv zeta.
  apply findIndex_present in Hin.
  destruct (Z.leb_spec 0 (findIndex (has_id (id variable)) (visible b))); [|lia].
  now rewrite Hp, Hs.
Qed.

Lemma add_rejected b uuid now variable e :
  storage_local_present b = true -> set_rejects b = Some e ->
  addUserVariable uuid now variable b = (Throw e, b).
Proof. intros Hp Hs. rewrite addUserVariable_eq. cbv zeta. now rewrite Hp, Hs. Qed.

(** X21.  [handleSaveVariable] stores nothing and keeps the dialog and the
    listed variables when the name or the value is blank, setting the error
    that names the blank field.  With both filled: when the write is
    rejected, for a creation as for an edit of an id the store holds, it
    sets ["Failed to save variable"], keeps the dialog and the listed
    variables, and the store is as it was; on a working store a creation
    resets the dialog ([open] false, no [editingId], all fields empty),
    keeps the error and lists the persisted collection, in which the name
    now finds the new record; on a working store an edit of an id the store
    holds does the same, the stored ids are unchanged and the id finds the
    record of the dialog; and an edit whose id no stored variable has
    resets the dialog without storing anything and without an error, in
    every environment. *)
Theorem handleSaveVariable_outcomes :
  forall uuid nowDialog nowStore st b,
    let d := VariableManager.createVariableDialog st in
    let st' := fst (VariableManager.handleSaveVariable uuid nowDialog nowStore st b) in
    let b' := snd (VariableManager.handleSaveVariable uuid nowDialog nowStore st b) in
    let d' := VariableManager.createVariableDialog st' in
    let reset :=
      VariableManager.open d' = false /\ VariableManager.editingId d' = None /\
      VariableManager.name d' = [] /\ VariableManager.value d' = [] /\
      VariableManager.description d' = [] /\ VariableManager.category d' = [] in
    (Preview.trim (VariableManager.name d) = [] ->
     b' = b /\
     st' = VariableManager.mkState (VariableManager.userVariables st) d
             (Some (str "Variable name is required"))) /\
    (Preview.trim (VariableManager.name d) <> [] ->
     Preview.trim (VariableManager.value d) = [] ->
     b' = b /\
     st' = VariableManager.mkState (VariableManager.userVariables st) d
             (Some (str "Variable value is required"))) /\
    (forall e,
        VariableManager.filled d ->
        storage_local_present b = true -> set_rejects b = Some e ->
        VariableManager.creating d \/
          (exists i, VariableManager.editingId d = Some i /\ In i (ids (visible b))) ->
        b' = b /\
        st' = VariableManager.mkState (VariableManager.userVariables st) d
                (Some (str "Failed to save variable"))) /\
    (VariableManager.filled d -> VariableManager.creating d -> healthy b ->
     reset /\
     VariableManager.error st' = VariableManager.error st /\
     VariableManager.userVariables st' = persisted b' /\
     find (fun v => jsstring_eqb (name v) (VariableManager.name d)) (persisted b')
       = Some (mkUserVariable uuid (VariableManager.name d) (VariableManager.value d)
                 (Some (VariableManager.description d)) (Some (VariableManager.category d))
                 nowStore)) /\
    (forall i,
        VariableManager.filled d -> VariableManager.editingId d = Some i -> i <> [] ->
        healthy b -> In i (ids (persisted b)) ->
        reset /\
        VariableManager.error st' = VariableManager.error st /\
        VariableManager.userVariables st' = persisted b' /\
        ids (persisted b') = ids (persisted b) /\
        find (fun v => jsstring_eqb (id v) i) (persisted b')
          = Some (mkUserVariable i (VariableManager.name d) (VariableManager.value d)
                    (Some (VariableManager.description d)) (Some (VariableManager.category d))
                    nowStore)) /\
    (forall i,
        VariableManager.filled d -> VariableManager.editingId d = Some i -> i <> [] ->
        ~ In i (ids (persisted b)) ->
        b' = b /\
        reset /\
        VariableManager.error st' = VariableManager.error st /\
        VariableManager.userVariables st' = visible b).
Proof.
  intros uuid nowDialog nowStore st b d st' b' d' reset.
  subst reset d' st' b'.
  split; [|split; [|split; [|split; [|split]]]].
  - intros Hn. unfold VariableManager.handleSaveVariable. fold d. cbv zeta.
    rewrite Hn. split; reflexivity.
  - intros Hn Hv. unfold VariableManager.handleSaveVariable. fold d. cbv zeta.
    rewrite (truthy_nonempty _ Hn), Hv. split; reflexivity.
  - intros e Hf Hp Hs Hcase. rewrite (save_filled _ _ _ _ _ Hf). fold d.
    unfold VariableManager.save_calls.
    destruct Hcase as [[-> | ->] | (i & -> & Hin)].
    + unfold bind. rewrite (add_rejected b _ _ _ e Hp Hs). split; reflexivity.
    + unfold bind. rewrite (add_rejected b _ _ _ e Hp Hs). split; reflexivity.
    + destruct i as [|c r].
      * unfold bind. rewrite (add_rejected b _ _ _ e Hp Hs). split; reflexivity.
      * unfold bind. rewrite (update_rejected b _ _ e Hp Hs) by exact Hin.
        split; reflexivity.
  - intros Hf Hc Hb.
    pose proof (upsert_find
                  (newVariable uuid nowStore
                     (mkUserVariableInput (VariableManager.name d) (VariableManager.value d)
                        (Some (VariableManager.description d))
                        (Some (VariableManager.category d)))) (persisted b)) as Hfind.
    rewrite (save_filled _ _ _ _ _ Hf). fold d. unfold VariableManager.save_calls.
    destruct Hc as [-> | ->]; unfold bind;
      rewrite (addUserVariable_healthy _ _ _ b Hb), getUserVariables_eq; cbn [fst snd];
      rewrite (visible_healthy _ (written_healthy b _ Hb)), persisted_written;
      (split; [repeat split | split; [reflexivity | split; [reflexivity | exact Hfind]]]).
  - intros i Hf Hi Hne Hb Hin.
    rewrite (save_filled _ _ _ _ _ Hf). fold d. unfold VariableManager.save_calls.
    rewrite Hi. destruct i as [|c r]; [congruence|]. unfold bind.
    destruct (update_present_healthy b nowStore
                (mkUserVariable (c :: r) (VariableManager.name d) (VariableManager.value d)
                   (Some (VariableManager.description d))
                   (Some (VariableManager.category d)) nowDialog) Hb Hin)
      as (l & Hup & Hids & Hfind).
    rewrite Hup, getUserVariables_eq. cbn [fst snd].
    rewrite (visible_healthy _ (written_healthy b _ Hb)), persisted_written.
    split; [repeat split | split; [reflexivity | split; [reflexivity | split; [exact Hids | exact Hfind]]]].
  - intros i Hf Hi Hne Hin.
    rewrite (save_filled _ _ _ _ _ Hf). fold d. unfold VariableManager.save_calls.
    rewrite Hi. destruct i as [|c r]; [congruence|]. unfold bind.
    rewrite update_missing_noop by exact Hin. rewrite getUserVariables_eq.
    cbn [fst snd]. split; [reflexivity|]. split; [repeat split|]. split; reflexivity.
Qed.

Lemma handleSaveVariable_outcomes_witness :
  (let d := VariableManager.mkCreateVariableDialog true None (str "B") (str "2") [] [] in
   let st := VariableManager.mkState stored_A d None in
   fst (VariableManager.handleSaveVariable (str "id-2") 2 3 st set_fails)
   = VariableManager.mkState stored_A d (Some (str "Failed to save variable"))) /\
  (let d := VariableManager.mkCreateVariableDialog true (Some (str "id-1"))
              (str "A") (str "9") [] [] in
   let st := VariableManager.mkState stored_A d None in
   fst (VariableManager.handleSaveVariable (str "id-2") 2 3 st set_fails)
   = VariableManager.mkState stored_A d (Some (str "Failed to save variable")) /\
   find (fun v => jsstring_eqb (id v) (str "id-1"))
     (persisted (snd (VariableManager.handleSaveVariable (str "id-2") 2 3 st healthy_A)))
   = Some (mkUserVariable (str "id-1") (str "A") (str "9") (Some []) (Some []) 3)).
Proof.
  split; [|split].
  - apply (proj1 (proj2 (proj2
      (handleSaveVariable_outcomes (str "id-2") 2 3
         (VariableManager.mkState stored_A
            (VariableManager.mkCreateVariableDialog true None (str "B") (str "2") [] []) None)
         set_fails))) (str "write error")).
    + split; discriminate.
    + reflexivity.
    + reflexivity.
    + left. left. reflexivity.
  - apply (proj1 (proj2 (proj2
      (handleSaveVariable_outcomes (str "id-2") 2 3
         (VariableManager.mkState stored_A
            (VariableManager.mkCreateVariableDialog true (Some (str "id-1"))
               (str "A") (str "9") [] []) None)
         set_fails))) (str "write error")).
    + split; discriminate.
    + reflexivity.
    + reflexivity.
    + right. exists (str "id-1"). split; [reflexivity|]. simpl. left. reflexivity.
  - apply (proj1 (proj2 (proj2 (proj2 (proj2
      (handleSaveVariable_outcomes (str "id-2") 2 3
         (VariableManager.mkState stored_A
            (VariableManager.mkCreateVariableDialog true (Some (str "id-1"))
               (str "A") (str "9") [] []) None)
         healthy_A))))) (str "id-1")).
    + split; discriminate.
    + reflexivity.
    + discriminate.
    + repeat split.
    + simpl. left. reflexivity.
Defined.

(** X22.  [handleDeleteVariable] on a working store lists, and leaves
    stored, the variables whose id differs from the given one; when the
    write is rejected it sets ["Failed to delete variable"] and neither the
    list nor the store changes.  It never touches the dialog. *)
Theorem handleDeleteVariable_outcomes :
  forall id0 st b,
    let st' := fst (VariableManager.handleDeleteVariable id0 st b) in
    let b' := snd (VariableManager.handleDeleteVariable id0 st b) in
    VariableManager.createVariableDialog st' = VariableManager.createVariableDialog st /\
    (healthy b ->
     VariableManager.userVariables st'
       = filter (fun v => negb (jsstring_eqb (id v) id0)) (persisted b) /\
     persisted b' = VariableManager.userVariables st' /\
     VariableManager.error st' = VariableManager.error st) /\
    (forall e,
        storage_local_present b = true -> set_rejects b = Some e ->
        b' = b /\
        VariableManager.userVariables st' = VariableManager.userVariables st /\
        VariableManager.error st' = Some (str "Failed to delete variable")).
Proof.
  intros id0 st b st' b'. subst st' b'. unfold VariableManager.handleDeleteVariable, bind.
  rewrite removeUserVariable_eq. cbv zeta. split; [|split].
  - destruct (storage_local_present b); [destruct (set_rejects b)|];
      try rewrite getUserVariables_eq; reflexivity.
  - intros Hb. rewrite (visible_healthy b Hb). destruct Hb as (Hp & Hg & Hs).
    rewrite Hp, Hs, getUserVariables_eq. cbn [fst snd].
    unfold visible, written, with_local. cbn [storage_local_present get_rejects].
    rewrite Hp, Hg. repeat split.
  - intros e Hp Hs. rewrite Hp, Hs. repeat split.
Qed.

Lemma handleDeleteVariable_outcomes_witness :
  VariableManager.userVariables
    (fst (VariableManager.handleDeleteVariable (str "id-1")
            (VariableManager.mkState stored_A VariableManager.closedDialog None) healthy_A))
  = [].
Proof.
  apply (proj1 (proj2 (handleDeleteVariable_outcomes (str "id-1")
                         (VariableManager.mkState stored_A VariableManager.closedDialog None)
                         healthy_A))).
  repeat split.
Defined.

(** ** Names without updates, and texts without delimiters *)

(** X23.  As long as no [updateUserVariable] is issued, names stay unique:
    from a collection with pairwise distinct names, any sequence of
    additions and removals leaves pairwise distinct names, whether the
    storage calls of the environment succeed or fail. *)
Theorem names_unique_without_updates :
  forall ops b,
    NoDup (names (persisted b)) ->
    Forall (fun op => forall now variable, op <> UpdateUserVariable now variable) ops ->
    NoDup (names (persisted (run_ops ops b))).
Proof.
  induction ops as [|op ops IH]; intros b Hnd Hops.
  - exact Hnd.
  - inversion Hops as [|? ? Hop Hrest]; subst.
    unfold run_ops. cbn [fold_left]. fold (run_ops ops (run_op op b)).
    apply IH; [|exact Hrest]. now apply add_remove_keep_names_unique.
Qed.

Lemma names_unique_without_updates_witness :
  NoDup (names (persisted (run_ops (firstn 2 rename_B_to_A) fresh_browser))).
Proof.
  apply names_unique_without_updates.
  - constructor.
  - repeat constructor; intros now variable H; discriminate H.
Defined.

(** X24.  A text that has no ["["], or no ["]"], has no occurrences, and
    [InteractiveText] renders it as one span: an unterminated placeholder
    is never reported. *)
Theorem undelimited_text_has_no_occurrence :
  forall t,
    ~ In LBRACKET t \/ ~ In RBRACKET t ->
    parseVariablesFromText t = [] /\ InteractiveText t = [TextSpan t].
Proof.
  intros t H.
  assert (Hnone : placeholders_from t 0 []).
  { apply no_more. intros i n _ (rest & Hs & _). destruct H as [H | H]; apply H.
    - apply (In_skipn _ i). rewrite Hs. now left.
    - apply (In_skipn _ i). rewrite Hs. right. apply in_or_app. right. now left. }
  assert (E : parseVariablesFromText t = [])
    by (eapply placeholders_from_unique; [apply parseVariablesFromText_spec | exact Hnone]).
  split; [exact E|]. unfold InteractiveText. now rewrite E.
Qed.

Lemma undelimited_text_has_no_occurrence_witness :
  parseVariablesFromText (str "Dear [NAME, welcome") = [].
Proof.
  apply (undelimited_text_has_no_occurrence (str "Dear [NAME, welcome")).
  right. simpl. intuition discriminate.
Defined.
